(** * A verified model of the procedural music generator

    The program composes five layers of timed events (melody, arpeggio,
    bassline, pads, drums), synthesises every event into samples, mixes the
    samples into one buffer and normalises the buffer.

    The program is embedded once, over an abstract number type.  Two
    interpretations of that type are given:
    - [float_number]: IEEE binary64, the arithmetic that CPython and NumPy
      really execute;
    - [Qc_number]: exact rational arithmetic, the idealisation in which the
      general theorems about time and amplitude are proved.

    Python's [random] module and NumPy's [np.random] are an explicit random
    source threaded through the code; [np.sin], [np.exp] and [np.pi] are
    parameters. *)

From Stdlib Require Import ZArith QArith Qcanon Qcabs Qround Lqa Lia Floats Permutation.
From stdpp Require Import gmap strings list pretty.

Set Default Proof Using "Type".
Set Warnings "-inexact-float".
Local Open Scope string_scope.
Local Open Scope list_scope.

(** ** Outcomes of a Python computation *)

Inductive exn : Type :=
  | KeyError | IndexError | ZeroDivisionError | ValueError
  | OverflowError | FloatingPointError.

Inductive outcome (A : Type) : Type :=
  | Done (a : A)
  | Raise (e : exn)
  | OutOfFuel.
Arguments Done {A} a.
Arguments Raise {A} e.
Arguments OutOfFuel {A}.

Definition outcome_bind {A B : Type} (f : A -> outcome B) (m : outcome A) : outcome B :=
  match m with
  | Done a => f a
  | Raise e => Raise e
  | OutOfFuel => OutOfFuel
  end.

#[global] Instance outcome_mbind : MBind outcome := @outcome_bind.
#[global] Instance outcome_mret : MRet outcome := @Done.
#[global] Instance outcome_fmap : FMap outcome :=
  fun A B f m => outcome_bind (fun a => Done (f a)) m.

(** A dictionary or list access that raises when the key is absent. *)
Definition or_raise {A : Type} (e : exn) (o : option A) : outcome A :=
  match o with
  | Some a => Done a
  | None => Raise e
  end.

(** What is left of an outcome for an observer of the result. *)
Definition result_of {A : Type} (m : outcome A) : option A :=
  match m with
  | Done a => Some a
  | _ => None
  end.

(** ** Numbers *)

Class Number (T : Type) : Type := {
  num_lit : Q -> T;              (* a decimal or integer literal *)
  num_add : T -> T -> T;
  num_sub : T -> T -> T;
  num_mul : T -> T -> T;
  num_opp : T -> T;
  num_div : T -> T -> option T;  (* [None]: no value of the type is the quotient *)
  num_abs : T -> T;
  num_ltb : T -> T -> bool;
  num_eqb : T -> T -> bool;
  num_isnan : T -> bool;
  num_trunc : T -> option Z      (* [int(x)]: toward zero; [None] for inf and NaN *)
}.

Arguments num_lit {T Number} q%_Q.
Abbreviation lit := num_lit.

Declare Scope num_scope.
Delimit Scope num_scope with num.
Infix "+" := num_add : num_scope.
Infix "-" := num_sub : num_scope.
Infix "*" := num_mul : num_scope.
Infix "<?" := num_ltb : num_scope.
Infix "=?" := num_eqb : num_scope.
Notation "- x" := (num_opp x) : num_scope.

(** *** Exact rationals *)

Definition Qc_ltb (x y : Qc) : bool :=
  match (x ?= y)%Qc with
  | Lt => true
  | _ => false
  end.

Definition Qc_trunc (x : Qc) : Z := Z.quot (Qnum x) (Zpos (Qden x)).

#[global] Instance Qc_number : Number Qc := {|
  num_lit := Q2Qc;
  num_add := Qcplus;
  num_sub := Qcminus;
  num_mul := Qcmult;
  num_opp := Qcopp;
  num_div := fun x y => if Qc_eq_bool y 0 then None else Some (x / y)%Qc;
  num_abs := Qcabs;
  num_ltb := Qc_ltb;
  num_eqb := Qc_eq_bool;
  num_isnan := fun _ => false;
  num_trunc := fun x => Some (Qc_trunc x)
|}.

(** *** IEEE binary64 *)

Definition float_of_Z (z : Z) : float :=
  match z with
  | Z0 => PrimFloat.zero
  | Zpos p => PrimFloat.of_uint63 (Uint63.of_pos p)
  | Zneg p => PrimFloat.opp (PrimFloat.of_uint63 (Uint63.of_pos p))
  end.

(** Both parts of the literals of this program are below [2^53], so the
    correctly rounded quotient is the double that Python reads. *)
Definition float_lit (q : Q) : float :=
  PrimFloat.div (float_of_Z (Qnum q)) (float_of_Z (Zpos (Qden q))).

Definition float_trunc (x : float) : option Z :=
  match Prim2SF x with
  | S754_zero _ => Some 0%Z
  | S754_finite s m e =>
      let a := match e with
               | Zneg k => Z.shiftr (Zpos m) (Zpos k)
               | _ => Z.shiftl (Zpos m) e
               end in
      Some (if s then Z.opp a else a)
  | S754_infinity _ => None
  | S754_nan => None
  end.

#[global] Instance float_number : Number float := {|
  num_lit := float_lit;
  num_add := PrimFloat.add;
  num_sub := PrimFloat.sub;
  num_mul := PrimFloat.mul;
  num_opp := PrimFloat.opp;
  num_div := fun x y => Some (PrimFloat.div x y);
  num_abs := PrimFloat.abs;
  num_ltb := PrimFloat.ltb;
  num_eqb := PrimFloat.eqb;
  num_isnan := PrimFloat.is_nan;
  num_trunc := float_trunc
|}.

(** ** The random source and the transcendental functions *)

(** [random.random], [random.randint], [random.choice],
    [random.choices(population, weights)[0]], [random.shuffle] and
    [np.random.rand], each taking and returning the state of the
    generators, with what the library guarantees about them. *)
Class PyRandom (T G : Type) `{Number T} : Type := {
  random_random : G -> T * G;
  random_randint : Z -> Z -> G -> Z * G;
  random_choice : forall {A : Type}, list A -> G -> outcome (A * G);
  random_choices : list T -> list T -> G -> outcome (T * G);
  random_shuffle : forall {A : Type}, list A -> G -> list A * G;
  np_random_rand : nat -> G -> list T * G;
  random_randint_range : forall a b g,
    (a <= b)%Z -> (a <= fst (random_randint a b g) <= b)%Z;
  random_choice_nil : forall (A : Type) g,
    random_choice (@nil A) g = Raise IndexError;
  random_choice_elem : forall (A : Type) (l : list A) g,
    l <> [] -> exists x g', random_choice l g = Done (x, g') /\ x ∈ l;
  random_choices_elem : forall (population weights : list T) g,
    population <> [] -> length weights = length population ->
    Forall (fun w => (lit 0 <? w)%num = true /\ (w <? lit 1)%num = true) weights ->
    exists x g', random_choices population weights g = Done (x, g') /\ x ∈ population;
  random_shuffle_perm : forall (A : Type) (l : list A) g,
    fst (random_shuffle l g) ≡ₚ l;
  np_random_rand_length : forall n g,
    length (fst (np_random_rand n g)) = n
}.

Class Transcendental (T : Type) : Type := {
  np_pi : T;
  np_sin : T -> T;
  np_exp : T -> T
}.

(** ** The tables of the program *)

Definition note_freqs : gmap string Q := list_to_map [
  ("C3", 130.81%Q); ("D3", 146.83%Q); ("E3", 164.81%Q); ("F3", 174.61%Q); ("G3", 196.00%Q);
  ("A3", 220.00%Q); ("B3", 246.94%Q); ("C4", 261.63%Q); ("D4", 293.66%Q); ("E4", 329.63%Q);
  ("F4", 349.23%Q); ("G4", 392.00%Q); ("A4", 440.00%Q); ("B4", 493.88%Q); ("C5", 523.25%Q);
  ("D5", 587.33%Q); ("E5", 659.25%Q) ].

Definition chord_notes : gmap string (list string) := list_to_map [
  ("C3", ["C4"; "E4"; "G4"]);
  ("G3", ["G4"; "B4"; "D5"]);
  ("A3", ["A4"; "C5"; "E5"]);
  ("F3", ["F4"; "A4"; "C5"]);
  ("E3", ["E3"; "G3"; "B3"]) ].

Definition chord_progressions : list (list string) := [
  ["C3"; "G3"; "A3"; "F3"];
  ["A3"; "F3"; "C3"; "G3"];
  ["F3"; "G3"; "E3"; "A3"];
  ["C3"; "A3"; "F3"; "G3"];
  ["C3"; "F3"; "G3"; "C3"];
  ["A3"; "F3"; "G3"; "C3"] ].

Definition scale : list string := ["C4"; "D4"; "E4"; "F4"; "G4"; "A4"; "B4"; "C5"].

(** ** Python and NumPy primitives *)

Section Primitives.
Context {T : Type} `{NT : Number T}.

Definition of_int (z : Z) : T := num_lit (inject_Z z).

(** [int(x)] *)
Definition py_int (x : T) : outcome Z :=
  match num_trunc x with
  | Some z => Done z
  | None => Raise (if num_isnan x then ValueError else OverflowError)
  end.

(** [x / y] on Python numbers *)
Definition py_div (x y : T) : outcome T :=
  if (y =? lit 0)%num then Raise ZeroDivisionError
  else or_raise FloatingPointError (num_div x y).

(** [x / y] on NumPy numbers: binary64 yields inf or NaN for a zero
    divisor; an interpretation without such values stops instead, as NumPy
    does under [np.seterr(all='raise')]. *)
Definition np_div (x y : T) : outcome T :=
  or_raise FloatingPointError (num_div x y).

(** [a % n] for an index [a] and a length [n] *)
Definition py_mod (a : Z) (n : nat) : outcome nat :=
  match n with
  | O => Raise ZeroDivisionError
  | _ => Done (Z.to_nat (a mod Z.of_nat n))
  end.

(** [min(a, b)] *)
Definition py_min (a b : T) : T := if (b <? a)%num then b else a.

(** [np.max]: NaN wins *)
Definition np_max_step (a b : T) : T :=
  if num_isnan a then a
  else if num_isnan b then b
  else if (a <? b)%num then b else a.

Definition np_max (l : list T) : outcome T :=
  match l with
  | [] => Raise ValueError
  | x :: l' => Done (foldl np_max_step x l')
  end.

(** [np.linspace(start, stop, num, False)] *)
Definition np_linspace (start stop : T) (num : Z) : outcome (list T) :=
  if (num <? 0)%Z then Raise ValueError
  else if (num =? 0)%Z then Done []
  else
    step ← np_div (stop - start)%num (of_int num);
    Done (map (fun k => (of_int (Z.of_nat k) * step + start)%num) (seq 0 (Z.to_nat num))).

(** [np.zeros(n)] *)
Definition np_zeros (n : nat) : list T := replicate n (lit 0).

(** The bound of a slice, as Python normalises it for a sequence of
    length [n]. *)
Definition slice_bound (n i : Z) : Z :=
  if (i <? 0)%Z then Z.max (i + n) 0 else Z.min i n.

(** [l[:k]] *)
Definition slice_to {A : Type} (l : list A) (k : Z) : list A :=
  take (Z.to_nat (slice_bound (Z.of_nat (length l)) k)) l.

(** One sample of the in-place sum: position [j] of the buffer receives
    the sample [j - lo] of the right-hand side, when there is one. *)
Definition add_at (lo : nat) (rhs : list T) (j : nat) (x : T) : T :=
  if decide (lo <= j)%nat then
    match rhs !! (j - lo)%nat with
    | Some y => (x + y)%num
    | None => x
    end
  else x.

(** [buf[i0:i1] += rhs], with NumPy's broadcasting of a one-sample
    right-hand side; any other mismatch of the lengths raises. *)
Definition iadd_slice (buf : list T) (i0 i1 : Z) (rhs : list T) : outcome (list T) :=
  let n := Z.of_nat (length buf) in
  let lo := Z.to_nat (slice_bound n i0) in
  let hi := Z.to_nat (slice_bound n i1) in
  let len := (hi - lo)%nat in
  if decide (length rhs = len) then Done (imap (add_at lo rhs) buf)
  else
    match rhs with
    | [y] => Done (imap (add_at lo (replicate len y)) buf)
    | _ => Raise ValueError
    end.

(** Stable sort by a key, as [list.sort(key=...)] and
    [list.sort(key=..., reverse=True)]. *)
Fixpoint insert_by {A : Type} (key : A -> T) (x : A) (l : list A) : list A :=
  match l with
  | [] => [x]
  | y :: l' => if (key x <? key y)%num then x :: l else y :: insert_by key x l'
  end.

Definition sort_by {A : Type} (key : A -> T) (l : list A) : list A :=
  foldl (fun acc x => insert_by key x acc) [] l.

Definition sort_by_reverse {A : Type} (key : A -> T) (l : list A) : list A :=
  reverse (sort_by key (reverse l)).

End Primitives.

(** ** The program *)

Section Program.
Context {T G : Type} `{RG : PyRandom T G} {TR : Transcendental T}.

(** An event is the tuple [(name, dur, start)]. *)
Definition event : Type := string * T * T.

Definition SR : T := lit 44100.

(** *** Waveform generators *)

Definition sine_wave (freq dur decay_factor : T) : outcome (list T) :=
  n ← py_int (SR * dur)%num;
  t ← np_linspace (lit 0) dur n;
  let wave := map (fun x => np_sin (lit 2 * np_pi * freq * x)%num) t in
  if (lit 0 <? decay_factor)%num then
    envelope ← mapM (fun x => q ← np_div (- x)%num dur;
                              Done (np_exp (q * decay_factor)%num)) t;
    Done (zip_with num_mul wave envelope)
  else Done wave.

Definition drum_sound (kind : string) (dur : T) (g : G) : outcome (list T * G) :=
  n ← py_int (SR * dur)%num;
  t ← np_linspace (lit 0) dur n;
  if bool_decide (kind = "kick") then
    Done (map (fun x => (np_sin (lit 2 * np_pi * lit 55 * x) * np_exp (- x * lit 30))%num) t, g)
  else if bool_decide (kind = "snare") then
    let '(noise, g') := np_random_rand (length t) g in
    Done (zip_with (fun x r => ((lit 0.8 * np_sin (lit 2 * np_pi * lit 180 * x) + lit 0.2 * r)
                                * np_exp (- x * lit 20))%num) t noise, g')
  else if bool_decide (kind = "hihat") then
    let '(noise, g') := np_random_rand (length t) g in
    Done (zip_with (fun x r => (r * np_exp (- x * lit 60) * lit 0.4)%num) t noise, g')
  else if bool_decide (kind = "clap") then
    let '(noise, g') := np_random_rand (length t) g in
    Done (zip_with (fun x r => (r * np_exp (- x * lit 40) * lit 0.6)%num) t noise, g')
  else Done (np_zeros (length t), g).

(** *** Mixer with clamping to buffer end *)

Definition gen_fn_t : Type := string -> T -> G -> outcome (list T * G).

(** The body of the loop of [add_events], for the buffer length [N] read
    before the loop. *)
Definition add_event (N : Z) (buf : list T) (ev : event) (gen_fn : gen_fn_t)
    (vol : T) (g : G) : outcome (list T * G) :=
  let '(name, dur, start) := ev in
  i0 ← py_int (start * SR)%num;
  '(wave, g') ← gen_fn name dur g;
  let data := map (fun x => (x * vol)%num) wave in
  let i1 := Z.min (i0 + Z.of_nat (length data)) N in
  if (i0 <? N)%Z then
    buf' ← iadd_slice buf i0 i1 (slice_to data (i1 - i0));
    Done (buf', g')
  else Done (buf, g').

Fixpoint add_events_loop (N : Z) (buf : list T) (events : list event)
    (gen_fn : gen_fn_t) (vol : T) (g : G) : outcome (list T * G) :=
  match events with
  | [] => Done (buf, g)
  | ev :: events' =>
      '(buf', g') ← add_event N buf ev gen_fn vol g;
      add_events_loop N buf' events' gen_fn vol g'
  end.

Definition add_events (buf : list T) (events : list event) (gen_fn : gen_fn_t)
    (vol : T) (g : G) : outcome (list T * G) :=
  add_events_loop (Z.of_nat (length buf)) buf events gen_fn vol g.

(** *** Layer generators *)

Variable DURATION : T.

(** [prog[i % len(prog)]] *)
Definition cyclic (prog : list string) (i : Z) : outcome string :=
  k ← py_mod i (length prog);
  or_raise IndexError (prog !! k).

Fixpoint melody_loop (fuel : nat) (prog : list string) (beat chord_len : T)
    (motif : list string) (t : T) (out : list event) (g : G)
    : outcome (list event * G) :=
  if (t <? DURATION)%num then
    match fuel with
    | O => OutOfFuel
    | S fuel' =>
        q ← py_div t chord_len;
        i ← py_int q;
        root ← cyclic prog i;
        let '(r1, g) := random_random g in
        pool ← (if (r1 <? lit 0.7)%num then or_raise KeyError (chord_notes !! root)
                else Done scale);
        '(note, g) ← random_choice pool g;
        let '(r2, g) := random_random g in
        '(note, g) ← (if (r2 <? lit 0.2)%num then random_choice motif g
                      else Done (note, g));
        '(c, g) ← random_choices [lit 0.5; lit 1.0; lit 2.0] [lit 0.4; lit 0.4; lit 0.2] g;
        let dur := py_min (c * beat)%num (DURATION - t)%num in
        melody_loop fuel' prog beat chord_len motif (t + dur)%num
          (out ++ [(note, dur, t)]) g
    end
  else Done (out, g).

Definition make_melody (fuel : nat) (prog : list string) (bpm : T)
    (motif : list string) (g : G) : outcome (list event * G) :=
  beat ← py_div (lit 60) bpm;
  let chord_len := (lit 4 * beat)%num in
  melody_loop fuel prog beat chord_len motif (lit 0) [] g.

Definition note_key (n : string) : outcome T :=
  (fun f => num_lit f) <$> or_raise KeyError (note_freqs !! n).

(** [notes.sort(key=lambda n: note_freqs[n], reverse=...)]: the keys are
    computed first, one look-up per note. *)
Definition sort_notes (rev : bool) (notes : list string) : outcome (list string) :=
  keys ← mapM note_key notes;
  let keyed := zip keys notes in
  Done ((if rev then sort_by_reverse fst keyed else sort_by fst keyed).*2).

Fixpoint arpeggio_loop (fuel : nat) (prog : list string) (beat step : T)
    (style : string) (t : T) (idx : Z) (out : list event) (g : G)
    : outcome (list event * G) :=
  if (t <? DURATION)%num then
    match fuel with
    | O => OutOfFuel
    | S fuel' =>
        q ← py_div t (lit 4 * beat)%num;
        i ← py_int q;
        root ← cyclic prog i;
        notes ← or_raise KeyError (chord_notes !! root);
        notes ← (if bool_decide (style = "asc") then sort_notes false notes
                 else Done notes);
        notes ← (if bool_decide (style = "desc") then sort_notes true notes
                 else Done notes);
        let '(notes, g) := (if bool_decide (style = "rand") then random_shuffle notes g
                            else (notes, g)) in
        let dur := py_min step (DURATION - t)%num in
        note ← cyclic notes idx;
        arpeggio_loop fuel' prog beat step style (t + dur)%num (idx + 1)%Z
          (out ++ [(note, dur, t)]) g
    end
  else Done (out, g).

Definition make_arpeggio (fuel : nat) (prog : list string) (bpm : T) (g : G)
    : outcome (list event * G) :=
  beat ← py_div (lit 60) bpm;
  let step := (lit 0.5 * beat)%num in
  '(style, g) ← random_choice ["asc"; "desc"; "rand"] g;
  arpeggio_loop fuel prog beat step style (lit 0) 0%Z [] g.

Fixpoint bass_loop (fuel : nat) (prog : list string) (beat : T)
    (t : T) (idx : Z) (out : list event) : outcome (list event) :=
  if (t <? DURATION)%num then
    match fuel with
    | O => OutOfFuel
    | S fuel' =>
        root ← cyclic prog idx;
        let dur := py_min (lit 4 * beat)%num (DURATION - t)%num in
        bass_loop fuel' prog beat (t + dur)%num (idx + 1)%Z (out ++ [(root, dur, t)])
    end
  else Done out.

Definition make_bass (fuel : nat) (prog : list string) (bpm : T)
    : outcome (list event) :=
  beat ← py_div (lit 60) bpm;
  bass_loop fuel prog beat (lit 0) 0%Z [].

Fixpoint pads_loop (fuel : nat) (prog : list string) (chord_dur : T)
    (t : T) (idx : Z) (out : list event) : outcome (list event) :=
  if (t <? DURATION)%num then
    match fuel with
    | O => OutOfFuel
    | S fuel' =>
        root ← cyclic prog idx;
        notes ← or_raise KeyError (chord_notes !! root);
        let dur := py_min chord_dur (DURATION - t)%num in
        pads_loop fuel' prog chord_dur (t + chord_dur)%num (idx + 1)%Z
          (out ++ map (fun note => (note, dur, t)) notes)
    end
  else Done out.

Definition make_pads (fuel : nat) (prog : list string) (bpm : T)
    : outcome (list event) :=
  beat ← py_div (lit 60) bpm;
  let chord_dur := (lit 4 * beat)%num in
  pads_loop fuel prog chord_dur (lit 0) 0%Z [].

(** The body of the loop of [make_drums] for the slot [i]: the events it
    appends, and the state of the random source after it. *)
Definition drums_slot (beat : T) (i : Z) (g : G) : outcome (list event * G) :=
  let start := (of_int i * beat)%num in
  let b := (i mod 4 + 1)%Z in
  let kick := if bool_decide (b = 1 \/ b = 3)%Z then [("kick", lit 0.08, start)] else [] in
  snare ← (if bool_decide (b = 2 \/ b = 4)%Z then
             half ← py_div DURATION (lit 2);
             Done (("snare", lit 0.08, start)
                   :: (if (half <? start)%num then [("clap", lit 0.08, start)] else []))
           else Done []);
  let hats := [("hihat", lit 0.06, start);
               ("hihat", lit 0.04, (start + lit 0.25 * beat)%num)] in
  let '(r, g) := random_random g in
  let roll := if (r <? lit 0.1)%num then
                map (fun j => ("snare", lit 0.05, (start + of_int j * lit 0.05)%num))
                    [0; 1; 2; 3]%Z
              else [] in
  Done (kick ++ snare ++ hats ++ roll, g).

Fixpoint drums_loop (slots : list Z) (beat : T) (out : list event) (g : G)
    : outcome (list event * G) :=
  match slots with
  | [] => Done (out, g)
  | i :: slots' =>
      '(evs, g) ← drums_slot beat i g;
      drums_loop slots' beat (out ++ evs) g
  end.

(** [range(n)] *)
Definition py_range (n : Z) : list Z := map Z.of_nat (seq 0 (Z.to_nat n)).

Definition make_drums (bpm : T) (g : G) : outcome (list event * G) :=
  beat ← py_div (lit 60) bpm;
  q ← py_div DURATION beat;
  n ← py_int q;
  drums_loop (py_range n) beat [] g.

(** *** Normalisation: [buffer *= 0.9 / np.max(np.abs(buffer))] *)

Definition normalize (buffer : list T) : outcome (list T) :=
  peak ← np_max (map num_abs buffer);
  k ← np_div (lit 0.9) peak;
  Done (map (fun x => (x * k)%num) buffer).

(** *** Build and mix *)

Definition tone (decay_factor : T) : gen_fn_t := fun n d g =>
  freq ← or_raise KeyError (note_freqs !! n);
  wave ← sine_wave (num_lit freq) d decay_factor;
  Done (wave, g).

Definition drum : gen_fn_t := fun k d g => drum_sound k d g.

(** A layer is what one call of [add_events] receives besides the buffer. *)
Record layer : Type := Layer {
  layer_events : list event;
  layer_gen : gen_fn_t;
  layer_vol : T
}.

Fixpoint mix (buf : list T) (layers : list layer) (g : G) : outcome (list T * G) :=
  match layers with
  | [] => Done (buf, g)
  | l :: layers' =>
      '(buf', g') ← add_events buf (layer_events l) (layer_gen l) (layer_vol l) g;
      mix buf' layers' g'
  end.

(** The five calls of the script, in its order. *)
Definition script_layers (melody arpeggio bassline pads drums : list event) : list layer :=
  [ Layer melody (tone (lit 3)) (lit 0.9);
    Layer arpeggio (tone (lit 3)) (lit 0.3);
    Layer bassline (tone (lit 0)) (lit 0.7);
    Layer pads (tone (lit 0.5)) (lit 0.2);
    Layer drums drum (lit 1.0) ].

Definition build_and_mix (fuel : nat) (g : G) : outcome (list T * G) :=
  let '(bpm, g) := random_randint 110 140 g in
  let bpm := of_int bpm in
  '(prog, g) ← random_choice chord_progressions g;
  '(m1, g) ← random_choice scale g;
  '(m2, g) ← random_choice scale g;
  '(m3, g) ← random_choice scale g;
  let motif := [m1; m2; m3] in
  '(melody, g) ← make_melody fuel prog bpm motif g;
  '(arpeggio, g) ← make_arpeggio fuel prog bpm g;
  bassline ← make_bass fuel prog bpm;
  pads ← make_pads fuel prog bpm;
  '(drums, g) ← make_drums bpm g;
  n ← py_int (DURATION * SR)%num;
  buffer ← (if (n <? 0)%Z then Raise ValueError else Done (np_zeros (Z.to_nat n)));
  '(buffer, g) ← mix buffer (script_layers melody arpeggio bassline pads drums) g;
  buffer ← normalize buffer;
  Done (buffer, g).

End Program.


(** ** The output file *)

Section Pcm.
Context {T : Type} `{NT : Number T}.

(** *** Conversion to 16-bit PCM: [(buffer * 32767).astype(np.int16).tobytes()] *)

(** [x.astype(np.int16)] on one sample: the fraction is dropped.  NumPy
    defines no result for a value outside the 16-bit range, nor for inf
    and NaN: the model has none there. *)
Definition astype_int16 (x : T) : option Z :=
  match num_trunc x with
  | Some z => if decide (-32768 <= z <= 32767)%Z then Some z else None
  | None => None
  end.

Definition to_pcm (buffer : list T) : option (list Z) :=
  mapM (fun x => astype_int16 (x * lit 32767)%num) buffer.

(** The two bytes of a 16-bit sample in two's complement, low byte first,
    as [tobytes] writes them on a little-endian machine. *)
Definition int16_bytes (z : Z) : list Z := [z mod 256; (z / 256) mod 256]%Z.

Definition tobytes (samples : list Z) : list Z := flat_map int16_bytes samples.

End Pcm.

(** *** Unique-filename helper *)

(** [f"{base} ({i}){ext}"] *)
Definition numbered (base ext : string) (i : Z) : string :=
  base +:+ " (" +:+ pretty i +:+ ")" +:+ ext.

Section Files.

(** [os.path.exists], for the state of the file system during the call. *)
Variable path_exists : string -> bool.

(** The loop of [get_unique_filename], entered with the current [name]
    and the counter [i]. *)
Fixpoint unique_loop (fuel : nat) (base ext name : string) (i : Z) : outcome string :=
  if path_exists name then
    match fuel with
    | O => OutOfFuel
    | S fuel' => unique_loop fuel' base ext (numbered base ext i) (i + 1)%Z
    end
  else Done name.

Definition get_unique_filename (fuel : nat) (base ext : string) : outcome string :=
  unique_loop fuel base ext (base +:+ ext) 1%Z.

End Files.

(** ** A deterministic random source and polynomial transcendentals

    Every theorem below holds for any random source and any interpretation
    of the transcendental functions.  The instances here make the program
    executable so that statements can be evaluated on concrete inputs. *)

Section TestDoubles.
Context {T : Type} `{NT : Number T}.

Definition lcg_next (s : N) : N := ((s * 1103515245 + 12345) mod 2147483648)%N.

Definition lcg_unit (s : N) : T := num_lit (Qmake (Z.of_N (s mod 1000)) 1000).

Definition lcg_choice {A : Type} (l : list A) (s : N) : outcome (A * N) :=
  match l !! N.to_nat (s mod N.of_nat (length l)) with
  | Some x => Done (x, lcg_next s)
  | None => Raise IndexError
  end.

Definition lcg_rotate {A : Type} (l : list A) (s : N) : list A * N :=
  let k := N.to_nat (s mod N.of_nat (length l)) in
  (drop k l ++ take k l, lcg_next s).

Fixpoint lcg_rand (n : nat) (s : N) : list T * N :=
  match n with
  | O => ([], s)
  | S n' => let '(l, s') := lcg_rand n' (lcg_next s) in (lcg_unit s :: l, s')
  end.

#[export] Program Instance lcg_random : PyRandom T N := {|
  random_random := fun s => (lcg_unit s, lcg_next s);
  random_randint := fun a b s => ((a + Z.of_N s mod (b - a + 1))%Z, lcg_next s);
  random_choice := fun A l s => lcg_choice l s;
  random_choices := fun population _ s => lcg_choice population s;
  random_shuffle := fun A l s => lcg_rotate l s;
  np_random_rand := lcg_rand
|}.
Next Obligation.
  intros a b s Hab. simpl.
  pose proof (Z.mod_pos_bound (Z.of_N s) (b - a + 1)%Z). lia.
Qed.
Next Obligation. done. Qed.
Next Obligation.
  intros A l s Hl. unfold lcg_choice.
  assert (Hlt : (N.to_nat (s mod N.of_nat (length l)) < length l)%nat).
  { assert (N.of_nat (length l) <> 0%N) by (destruct l; [done | simpl; lia]).
    pose proof (N.mod_upper_bound s (N.of_nat (length l))). lia. }
  destruct (lookup_lt_is_Some_2 l _ Hlt) as [x Hx].
  rewrite Hx. exists x, (lcg_next s). split; [done |].
  by eapply list_elem_of_lookup_2.
Qed.
Next Obligation.
  intros l weights s Hl _ _. unfold lcg_choice.
  assert (Hlt : (N.to_nat (s mod N.of_nat (length l)) < length l)%nat).
  { assert (N.of_nat (length l) <> 0%N) by (destruct l; [done | simpl; lia]).
    pose proof (N.mod_upper_bound s (N.of_nat (length l))). lia. }
  destruct (lookup_lt_is_Some_2 l _ Hlt) as [x Hx].
  rewrite Hx. exists x, (lcg_next s). split; [done |].
  by eapply list_elem_of_lookup_2.
Qed.
Next Obligation.
  intros A l s. simpl. rewrite Permutation_app_comm. by rewrite take_drop.
Qed.
Next Obligation.
  intros n. induction n as [| n IH]; intros s; simpl; [done |].
  specialize (IH (lcg_next s)). destruct (lcg_rand n (lcg_next s)). simpl in *. lia.
Qed.

(** Truncated series, enough to run the synthesiser. *)
#[export] Instance series_transcendental : Transcendental T := {|
  np_pi := lit 3.14159;
  np_sin := fun x => (x - x * x * x * num_lit (Qmake 1 6))%num;
  np_exp := fun x => (lit 1 + x + x * x * lit 0.5)%num
|}.

End TestDoubles.

(** * Notions used to state the properties

    Everything from here on is about the exact interpretation, except where
    binary64 is named. *)

(** ** Events in sequence *)

Definition ev_dur (ev : @event Qc) : Qc := ev.1.2.
Definition ev_start (ev : @event Qc) : Qc := ev.2.

(** [chained t evs t']: the first event starts at [t], every later event
    starts where the one before it ends, and the last one ends at [t']. *)
Inductive chained : Qc -> list (@event Qc) -> Qc -> Prop :=
  | chained_nil t : chained t [] t
  | chained_cons name dur t evs t' :
      chained (t + dur)%Qc evs t' -> chained t ((name, dur, t) :: evs) t'.


Definition positive_durations (evs : list (@event Qc)) : Prop :=
  Forall (fun ev => (0 < ev_dur ev)%Qc) evs.


(** ** Fuel *)

Fixpoint times (n : nat) (x : Qc) : Qc :=
  match n with
  | O => 0%Qc
  | S n' => (x + times n' x)%Qc
  end.

Definition iterations_bound (D step : Qc) : nat := Z.to_nat (Qceiling (D / step)%Qc).

Definition beat_of (bpm : Qc) : Qc := (Q2Qc 60 / bpm)%Qc.

(** Fuel for as many iterations as there are half beats in [D]. *)
Definition enough_fuel (D bpm : Qc) (fuel : nat) : Prop :=
  (iterations_bound D (Q2Qc 0.5 * beat_of bpm)%Qc <= fuel)%nat.

(** ** Layers *)

Definition valid_progression (prog : list string) : Prop :=
  prog <> [] /\ Forall (fun r => is_Some (chord_notes !! r)) prog.

Definition melody_factors : list Qc := [Q2Qc 0.5; Q2Qc 1.0; Q2Qc 2.0].



(** The ordering of the triad by the style of the arpeggio, as one
    computation. *)
Definition arrange {G : Type} {RG : @PyRandom Qc G Qc_number}
    (style : string) (notes : list string) (g : G) : outcome (list string * G) :=
  notes ← (if bool_decide (style = "asc") then sort_notes (T:=Qc) false notes
           else Done notes);
  notes ← (if bool_decide (style = "desc") then sort_notes (T:=Qc) true notes
           else Done notes);
  Done (if bool_decide (style = "rand") then random_shuffle notes g else (notes, g)).



(** ** Drums *)


(** The pattern of one slot, written from the rules of the specification:
    kick on phases 1 and 3, snare on phases 2 and 4, clap on phases 2 and 4
    past the half of the piece, and two hi-hats on every slot. *)
Definition slot_pattern (D beat : Qc) (i : Z) : list (@event Qc) :=
  let start := (of_int i * beat)%Qc in
  let b := (i mod 4 + 1)%Z in
  (if bool_decide (b = 1 \/ b = 3)%Z then [("kick", Q2Qc 0.08, start)] else []) ++
  (if bool_decide (b = 2 \/ b = 4)%Z then [("snare", Q2Qc 0.08, start)] else []) ++
  (if bool_decide ((b = 2 \/ b = 4)%Z /\ (D / Q2Qc 2 < start)%Qc)
   then [("clap", Q2Qc 0.08, start)] else []) ++
  [("hihat", Q2Qc 0.06, start); ("hihat", Q2Qc 0.04, (start + Q2Qc 0.25 * beat)%Qc)].


(** ** Mixer *)

Definition known_kinds : list string := ["kick"; "snare"; "hihat"; "clap"].

(** The nearest integer, ties to the even one: the [round] of the
    specification. *)
Definition spec_round (q : Qc) : Z :=
  let f := Qfloor q in
  let r := (q - of_int f)%Qc in
  if Qc_ltb r (Q2Qc 0.5) then f
  else if Qc_ltb (Q2Qc 0.5) r then (f + 1)%Z
  else if Z.even f then f else (f + 1)%Z.

(** Sample-wise sum of two buffers. *)
Definition buf_add (b c : list Qc) : list Qc := zip_with Qcplus b c.

(** The outcome of a call on the buffer [b + c], from its outcome on [c]. *)
Definition shifted {G : Type} (b : list Qc) (m : outcome (list Qc * G))
    : outcome (list Qc * G) :=
  (fun r => (buf_add b r.1, r.2)) <$> m.

(** What one layer adds to the buffer: its outcome on silence. *)
Definition contribution {G : Type} (l : @layer Qc G) (n : nat) (g : G)
    : outcome (list Qc * G) :=
  add_events (np_zeros n) (layer_events l) (layer_gen l) (layer_vol l) g.


(** ** Normaliser *)

(** [m] is the greatest absolute value of the samples of [buf]. *)
Definition is_peak (m : Qc) (buf : list Qc) : Prop :=
  Forall (fun x => (Qcabs x <= m)%Qc) buf /\ exists x, x ∈ buf /\ Qcabs x = m.

Definition silent (buf : list Qc) : Prop := Forall (fun x => x = 0%Qc) buf.

(** ** Counting the steps of a clock *)

(** [n] steps of [step] pass the length [len], and [n - 1] steps do not. *)
Definition steps_to_cover (n : nat) (len step : Qc) : Prop :=
  (times (n - 1) step < len)%Qc /\ (len <= times n step)%Qc.

(** ** Notes and kinds *)


(** An event of a tonal layer that the mixer can place: its note is in the
    pitch table and neither its duration nor its start is negative. *)
Definition playable (ev : @event Qc) : Prop :=
  is_Some (note_freqs !! ev.1.1) /\ (0 <= ev_dur ev)%Qc /\ (0 <= ev_start ev)%Qc.

(** The same for a percussion event, whose kind is free. *)
Definition placeable (ev : @event Qc) : Prop :=
  (0 <= ev_dur ev)%Qc /\ (0 <= ev_start ev)%Qc.


(** Every sample multiplied by a volume. *)
Definition scaled (vol : Qc) (b : list Qc) : list Qc := map (fun x => (x * vol)%Qc) b.

(** * Proofs *)

(** ** The two interpretations of numbers, on examples *)

Example float_lit_0_9 : float_lit 0.9 = 0.9%float.
Proof. reflexivity. Qed.
Example float_trunc_ex : float_trunc (-2.75)%float = Some (-2)%Z /\ float_trunc 661500%float = Some 661500%Z.
Proof. split; reflexivity. Qed.
Example Qc_trunc_ex : Qc_trunc (Q2Qc (-2.75)) = (-2)%Z /\ Qc_trunc (Q2Qc 0.882) = 0%Z.
Proof. split; reflexivity. Qed.

(** * Exact arithmetic *)

(** ** Linear reasoning over [Qc] *)

Lemma Qc_eq_iff (x y : Qc) : x = y <-> (this x == this y)%Q.
Proof. split; [intros ->; reflexivity | apply Qc_is_canon]. Qed.

Lemma this_plus (x y : Qc) : (this (x + y)%Qc == this x + this y)%Q.
Proof. apply Qred_correct. Qed.

Lemma this_mult (x y : Qc) : (this (x * y)%Qc == this x * this y)%Q.
Proof. apply Qred_correct. Qed.

Lemma this_opp (x : Qc) : (this (- x)%Qc == - this x)%Q.
Proof. apply Qred_correct. Qed.

Lemma this_minus (x y : Qc) : (this (x - y)%Qc == this x - this y)%Q.
Proof. unfold Qcminus. rewrite this_plus, this_opp. reflexivity. Qed.

Lemma this_Q2Qc (q : Q) : (this (Q2Qc q) == q)%Q.
Proof. apply Qred_correct. Qed.

Ltac exact_num :=
  cbn [num_lit num_add num_sub num_mul num_opp num_div num_abs num_ltb
       num_eqb num_isnan num_trunc Qc_number] in *.

Ltac qc_lra :=
  exact_num;
  rewrite ?Qc_eq_iff in *; unfold Qclt, Qcle in *;
  repeat (rewrite ?this_plus, ?this_minus, ?this_mult, ?this_opp, ?this_Q2Qc in * );
  lra.

(** Reduction of the monadic plumbing only. *)
Ltac run_bind := cbn [mbind outcome_mbind outcome_bind or_raise].
Ltac run_fmap := cbn [mbind outcome_mbind outcome_bind fmap outcome_fmap or_raise fst snd].

(** Closed equations between values that hold rationals: the canonical
    forms are compared. *)
Ltac qc_refl :=
  vm_compute;
  repeat first [ reflexivity | apply Qc_is_canon; reflexivity | progress f_equal ].

Lemma Qc_ltb_lt (x y : Qc) : Qc_ltb x y = true <-> (x < y)%Qc.
Proof.
  unfold Qc_ltb. rewrite Qclt_alt. destruct (x ?= y)%Qc; split; congruence.
Qed.

Lemma Qc_ltb_ge (x y : Qc) : Qc_ltb x y = false <-> (y <= x)%Qc.
Proof.
  rewrite <- not_true_iff_false, Qc_ltb_lt. split.
  - apply Qcnot_lt_le.
  - apply Qcle_not_lt.
Qed.

Lemma Qc_eq_bool_true (x y : Qc) : Qc_eq_bool x y = true <-> x = y.
Proof.
  split; [apply Qc_eq_bool_correct |].
  intros ->. unfold Qc_eq_bool. by destruct (Qcanon.Qc_eq_dec y y).
Qed.

Lemma Qc_eq_bool_false (x y : Qc) : x <> y -> Qc_eq_bool x y = false.
Proof.
  intros Hne. apply not_true_iff_false. by rewrite Qc_eq_bool_true.
Qed.

Lemma Qc_div_pos (a b : Qc) : (0 < a -> 0 < b -> 0 < a / b)%Qc.
Proof.
  intros Ha Hb. unfold Qcdiv. apply Qcmult_pos_pos; [done | by apply Qcinv_pos].
Qed.

Lemma py_div_Qc (x y : Qc) : y <> 0%Qc -> py_div x y = Done (x / y)%Qc.
Proof.
  intros Hy. unfold py_div, np_div. exact_num.
  change (Q2Qc 0) with 0%Qc. by rewrite Qc_eq_bool_false.
Qed.

Lemma py_div_Qc_zero (x : Qc) : py_div x 0%Qc = Raise ZeroDivisionError.
Proof. reflexivity. Qed.

Lemma py_min_case (a b : Qc) :
  (b < a /\ py_min a b = b)%Qc \/ (a <= b /\ py_min a b = a)%Qc.
Proof.
  unfold py_min. exact_num. destruct (Qc_ltb b a) eqn:E.
  - left. by apply Qc_ltb_lt in E.
  - right. by apply Qc_ltb_ge in E.
Qed.

Lemma beat_pos (bpm : Qc) : (0 < bpm -> 0 < Q2Qc 60 / bpm)%Qc.
Proof. intros. by apply Qc_div_pos. Qed.

Lemma Qc_scale_pos (c x : Qc) : (0 < c -> 0 < x -> 0 < c * x)%Qc.
Proof. apply Qcmult_pos_pos. Qed.

(** ** Events in sequence *)

Lemma chained_app t1 t2 t3 evs1 evs2 :
  chained t1 evs1 t2 -> chained t2 evs2 t3 -> chained t1 (evs1 ++ evs2) t3.
Proof.
  induction 1 as [| name dur t evs t' _ IH]; intros H2; simpl; [done |].
  constructor. by apply IH.
Qed.



(** ** Counting iterations *)

Lemma times_mult (n : nat) (x : Qc) : times n x = (Q2Qc (inject_Z (Z.of_nat n)) * x)%Qc.
Proof.
  induction n as [| n IH].
  { apply Qc_is_canon. cbn [times]. rewrite this_mult, !this_Q2Qc.
    change (inject_Z (Z.of_nat 0)) with 0%Q. ring. }
  cbn [times]. rewrite IH. rewrite Nat2Z.inj_succ.
  apply Qc_is_canon. rewrite !this_plus, !this_mult, !this_Q2Qc.
  unfold Z.succ. rewrite inject_Z_plus. ring.
Qed.

Lemma times_mono (n m : nat) (x : Qc) : (0 <= x)%Qc -> (n <= m)%nat -> (times n x <= times m x)%Qc.
Proof.
  intros Hx Hnm. induction Hnm as [| m _ IH]; [apply Qcle_refl |].
  cbn [times]. qc_lra.
Qed.

Lemma times_scale (n : nat) (x y : Qc) : (0 <= x <= y)%Qc -> (times n x <= times n y)%Qc.
Proof.
  intros [H0 Hxy]. induction n as [| n IH]; [apply Qcle_refl |].
  cbn [times]. qc_lra.
Qed.

Lemma iterations_bound_enough (D step : Qc) (fuel : nat) :
  (0 < step)%Qc -> (iterations_bound D step <= fuel)%nat -> (D <= times fuel step)%Qc.
Proof.
  intros Hstep Hfuel.
  eapply Qcle_trans; [| apply times_mono; [by apply Qclt_le_weak | exact Hfuel]].
  rewrite times_mult. unfold iterations_bound.
  set (c := Qceiling (D / step)%Qc).
  assert (Hc : (D / step <= Q2Qc (inject_Z c))%Qc).
  { unfold Qcle. rewrite this_Q2Qc. apply Qle_ceiling. }
  assert (Hc' : (Q2Qc (inject_Z c) <= Q2Qc (inject_Z (Z.of_nat (Z.to_nat c))))%Qc).
  { unfold Qcle. rewrite !this_Q2Qc. rewrite <- Zle_Qle. lia. }
  assert (HD : D = (D / step * step)%Qc).
  { field. intros ->. by apply (irreflexivity Qclt) in Hstep. }
  rewrite HD at 1.
  apply Qcmult_le_mono_nonneg_r; [by apply Qclt_le_weak |].
  by eapply Qcle_trans.
Qed.

(** ** The clock of the generators *)

Lemma times_nonneg (n : nat) (x : Qc) : (0 <= x)%Qc -> (0 <= times n x)%Qc.
Proof.
  intros Hx. induction n as [| n IH]; [apply Qcle_refl |]. cbn [times]. qc_lra.
Qed.

Lemma cyclic_cases (prog : list string) (i : Z) :
  (prog = [] /\ cyclic prog i = Raise ZeroDivisionError) \/
  (exists r, cyclic prog i = Done r /\ r ∈ prog).
Proof.
  destruct prog as [| r0 prog]; [by left | right].
  unfold cyclic, py_mod. cbn [length mbind outcome_mbind outcome_bind].
  set (k := Z.to_nat (i mod Z.of_nat (S (length prog)))).
  assert (Hk : (k < length (r0 :: prog))%nat).
  { subst k. cbn [length].
    pose proof (Z.mod_pos_bound i (Z.of_nat (S (length prog)))). lia. }
  destruct (lookup_lt_is_Some_2 _ _ Hk) as [r Hr].
  exists r. rewrite Hr. split; [done |]. by eapply list_elem_of_lookup_2.
Qed.

Lemma cyclic_replicate (n : nat) (r : string) (i : Z) :
  (0 < n)%nat -> cyclic (replicate n r) i = Done r.
Proof.
  intros Hn. destruct (cyclic_cases (replicate n r) i) as [[Hnil _] | (r' & Hr' & Hin)].
  - destruct n; [lia | discriminate].
  - apply elem_of_replicate in Hin as [-> _]. done.
Qed.

(** The clamped duration of one step, and the clock after it. *)
Lemma clamp_step (D t step : Qc) :
  (t < D)%Qc -> (0 < step)%Qc ->
  let dur := py_min step (D - t)%Qc in
  (0 < dur)%Qc /\ (dur <= step)%Qc /\ (t + dur <= D)%Qc /\
  ((t + dur < D)%Qc -> dur = step).
Proof.
  intros Ht Hs dur. subst dur.
  destruct (py_min_case step (D - t)%Qc) as [[Hlt ->] | [Hle ->]].
  - repeat split; qc_lra.
  - repeat split; qc_lra.
Qed.

Section BassAndPads.
Variable D : Qc.
Variable prog : list string.
Variable beat s : Qc.
Hypothesis s_pos : (0 < s)%Qc.
Hypothesis s_le : (s <= Q2Qc 4 * beat)%Qc.

Lemma chord_dur_pos : (0 < Q2Qc 4 * beat)%Qc.
Proof using s_pos s_le. by eapply Qclt_le_trans. Qed.

Lemma bass_loop_exit fuel t idx out :
  Qc_ltb t D = false -> bass_loop D fuel prog beat t idx out = Done out.
Proof. intros E. destruct fuel; cbn [bass_loop]; exact_num; by rewrite E. Qed.

Lemma bass_loop_unfold fuel t idx out :
  Qc_ltb t D = true ->
  bass_loop D (S fuel) prog beat t idx out =
    (root ← cyclic prog idx;
     let dur := py_min (Q2Qc 4 * beat)%Qc (D - t)%Qc in
     bass_loop D fuel prog beat (t + dur)%Qc (idx + 1)%Z (out ++ [(root, dur, t)])).
Proof. intros E. cbn [bass_loop]. exact_num. by rewrite E. Qed.

Lemma bass_loop_spec fuel : forall t idx out,
  (D - t <= times fuel s)%Qc ->
  (exists e, bass_loop D fuel prog beat t idx out = Raise e) \/
  (exists evs, bass_loop D fuel prog beat t idx out = Done (out ++ evs) /\
     chained t evs (if Qc_ltb t D then D else t) /\
     positive_durations evs /\
     Forall (fun ev => ev.1.1 ∈ prog) evs).
Proof using s_pos s_le.
  induction fuel as [| fuel IH]; intros t idx out Hfuel;
    destruct (Qc_ltb t D) eqn:E.
  - apply Qc_ltb_lt in E. cbn [times] in Hfuel. exfalso. qc_lra.
  - right. exists []. rewrite bass_loop_exit, app_nil_r by done.
    repeat split; constructor.
  - rewrite bass_loop_unfold by done.
    destruct (cyclic_cases prog idx) as [[_ ->] | (root & -> & Hroot)];
      [left; by eexists |].
    cbn [mbind outcome_mbind outcome_bind].
    apply Qc_ltb_lt in E.
    destruct (clamp_step D t (Q2Qc 4 * beat)%Qc E chord_dur_pos)
      as (Hpos & Hle & Hend & Hfull).
    set (dur := py_min (Q2Qc 4 * beat)%Qc (D - t)%Qc) in *.
    assert (Hfuel' : (D - (t + dur) <= times fuel s)%Qc).
    { destruct (Qclt_le_dec (t + dur)%Qc D) as [Hlt | Hge].
      - specialize (Hfull Hlt). cbn [times] in Hfuel. qc_lra.
      - pose proof (times_nonneg fuel s (Qclt_le_weak _ _ s_pos)). qc_lra. }
    destruct (IH (t + dur)%Qc (idx + 1)%Z (out ++ [(root, dur, t)]) Hfuel')
      as [[e He] | (evs & He & Hch & Hp & Hin)]; [left; by eexists |].
    right. exists ((root, dur, t) :: evs).
    rewrite He, <- app_assoc. split; [done |].
    split; [| split; by constructor].
    constructor.
    destruct (Qc_ltb (t + dur)%Qc D) eqn:E'; [done |].
    apply Qc_ltb_ge in E'.
    replace D with (t + dur)%Qc by (apply Qcle_antisym; done). done.
  - right. exists []. rewrite bass_loop_exit, app_nil_r by done.
    repeat split; constructor.
Qed.

Lemma bass_loop_no_raise fuel : forall t idx out e,
  prog <> [] -> bass_loop D fuel prog beat t idx out <> Raise e.
Proof.
  induction fuel as [| fuel IH]; intros t idx out e Hprog;
    destruct (Qc_ltb t D) eqn:E.
  - cbn [bass_loop]. exact_num. by rewrite E.
  - by rewrite bass_loop_exit.
  - rewrite bass_loop_unfold by done.
    destruct (cyclic_cases prog idx) as [[? _] | (root & -> & _)]; [done |].
    cbn [mbind outcome_mbind outcome_bind]. by apply IH.
  - by rewrite bass_loop_exit.
Qed.

Lemma pads_loop_exit fuel t idx out :
  Qc_ltb t D = false -> pads_loop D fuel prog (Q2Qc 4 * beat)%Qc t idx out = Done out.
Proof. intros E. destruct fuel; cbn [pads_loop]; exact_num; by rewrite E. Qed.

Lemma pads_loop_unfold fuel t idx out :
  Qc_ltb t D = true ->
  pads_loop D (S fuel) prog (Q2Qc 4 * beat)%Qc t idx out =
    (root ← cyclic prog idx;
     notes ← or_raise KeyError (chord_notes !! root);
     let dur := py_min (Q2Qc 4 * beat)%Qc (D - t)%Qc in
     pads_loop D fuel prog (Q2Qc 4 * beat)%Qc (t + Q2Qc 4 * beat)%Qc (idx + 1)%Z
       (out ++ map (fun note => (note, dur, t)) notes)).
Proof. intros E. cbn [pads_loop]. exact_num. by rewrite E. Qed.



End BassAndPads.

(** ** Facts about the tables *)

Lemma chord_notes_triads :
  map_Forall (fun _ notes =>
    length notes = 3%nat /\ Forall (fun n => is_Some (note_freqs !! n)) notes)
    chord_notes.
Proof.
  apply map_Forall_to_list.
  assert (Hl : map_to_list chord_notes ≡ₚ
    [("C3", ["C4"; "E4"; "G4"]); ("G3", ["G4"; "B4"; "D5"]);
     ("A3", ["A4"; "C5"; "E5"]); ("F3", ["F4"; "A4"; "C5"]);
     ("E3", ["E3"; "G3"; "B3"])]).
  { unfold chord_notes. apply map_to_list_to_map. by vm_compute; repeat constructor;
      rewrite ?elem_of_cons, ?elem_of_nil; intuition congruence. }
  rewrite Hl. repeat constructor; by eexists.
Qed.

Lemma chord_notes_lookup (root : string) (notes : list string) :
  chord_notes !! root = Some notes ->
  length notes = 3%nat /\ Forall (fun n => is_Some (note_freqs !! n)) notes.
Proof. intros H. exact (chord_notes_triads root notes H). Qed.

(** ** Sorting keeps the notes *)

Section Sorting.
Context {A : Type} (key : A -> Qc).

Lemma insert_by_perm (x : A) (l : list A) : insert_by key x l ≡ₚ x :: l.
Proof.
  induction l as [| y l IH]; cbn [insert_by]; [done |].
  destruct (key x <? key y)%num; [done |].
  rewrite IH. apply Permutation_swap.
Qed.

Lemma sort_by_perm (l : list A) : sort_by key l ≡ₚ l.
Proof.
  unfold sort_by.
  assert (Hgen : forall acc, foldl (fun acc x => insert_by key x acc) acc l ≡ₚ acc ++ l).
  { induction l as [| x l IH]; intros acc; cbn [foldl].
    - by rewrite app_nil_r.
    - rewrite IH, insert_by_perm. apply Permutation_middle. }
  by rewrite Hgen.
Qed.

Lemma sort_by_reverse_perm (l : list A) : sort_by_reverse key l ≡ₚ l.
Proof. unfold sort_by_reverse. by rewrite reverse_Permutation, sort_by_perm, reverse_Permutation. Qed.

End Sorting.

Lemma note_key_Some (n : string) (f : Q) :
  note_freqs !! n = Some f -> note_key (T:=Qc) n = Done (Q2Qc f).
Proof. unfold note_key. by intros ->. Qed.

Lemma note_key_None (n : string) :
  note_freqs !! n = None -> note_key (T:=Qc) n = Raise KeyError.
Proof. unfold note_key. by intros ->. Qed.

Lemma mapM_note_key (notes : list string) :
  Forall (fun n => is_Some (note_freqs !! n)) notes ->
  exists keys : list Qc, mapM note_key notes = Done keys /\ length keys = length notes.
Proof.
  induction 1 as [| n notes [f Hf] _ (keys & IH & Hlen)].
  - by exists [].
  - exists (Q2Qc f :: keys). cbn [mapM]. rewrite (note_key_Some n f Hf), IH.
    cbn. split; [done | by rewrite Hlen].
Qed.



Lemma sort_notes_perm (rev : bool) (notes : list string) :
  Forall (fun n => is_Some (note_freqs !! n)) notes ->
  exists sorted, sort_notes (T:=Qc) rev notes = Done sorted /\ sorted ≡ₚ notes.
Proof.
  intros Hn. destruct (mapM_note_key notes Hn) as (keys & Hk & Hlen).
  unfold sort_notes. rewrite Hk. cbn [mbind outcome_mbind outcome_bind].
  eexists. split; [done |].
  assert (Hz : (zip keys notes).*2 = notes) by (apply snd_zip; lia).
  transitivity ((zip keys notes).*2); [| by rewrite Hz].
  apply fmap_Permutation.
  destruct rev; [apply sort_by_reverse_perm | apply sort_by_perm].
Qed.

Lemma sort_notes_length (rev : bool) (notes sorted : list string) :
  sort_notes (T:=Qc) rev notes = Done sorted -> length sorted = length notes.
Proof.
  unfold sort_notes. destruct (mapM note_key notes) as [keys | |] eqn:Hk; cbn; try done.
  intros [= <-]. rewrite length_fmap.
  assert (length keys = length notes) as Hlen.
  { clear -Hk. revert keys Hk. induction notes as [| n notes IH]; intros keys; cbn [mapM].
    - by intros [= <-].
    - destruct (note_freqs !! n) as [f |] eqn:Hf.
      + rewrite (note_key_Some n f Hf).
        destruct (mapM note_key notes) as [ks | |]; cbn; try done.
        intros [= <-]. cbn. f_equal. by apply IH.
      + by rewrite (note_key_None n Hf). }
  destruct rev.
  - rewrite (Permutation_length (sort_by_reverse_perm _ _)), length_zip. lia.
  - rewrite (Permutation_length (sort_by_perm _ _)), length_zip. lia.
Qed.

(** ** The layers that draw from the random source *)

Lemma four_beats_nonzero (beat : Qc) : (0 < beat)%Qc -> (Q2Qc 4 * beat)%Qc <> 0%Qc.
Proof. intros Hb H. qc_lra. Qed.

Section RandomLayers.
Context {G : Type} {RG : @PyRandom Qc G Qc_number}.

Lemma random_choice_cases {A : Type} (l : list A) (g : G) :
  (l = [] /\ random_choice l g = Raise IndexError) \/
  (exists x g', random_choice l g = Done (x, g') /\ x ∈ l).
Proof.
  destruct l as [| a l].
  - left. split; [done | apply random_choice_nil].
  - right. by apply random_choice_elem.
Qed.

Lemma duration_choice (g : G) :
  exists c g',
    random_choices [Q2Qc 0.5; Q2Qc 1.0; Q2Qc 2.0] [Q2Qc 0.4; Q2Qc 0.4; Q2Qc 0.2] g
      = Done (c, g')
    /\ c ∈ melody_factors.
Proof.
  apply (random_choices_elem (T:=Qc)); [done | done |].
  repeat constructor.
Qed.

Lemma melody_factor_bounds (c : Qc) : c ∈ melody_factors -> (Q2Qc 0.5 <= c)%Qc.
Proof.
  unfold melody_factors. rewrite !elem_of_cons, elem_of_nil.
  intros [-> | [-> | [-> | []]]]; by vm_compute.
Qed.

Variable D : Qc.
Variable prog motif : list string.
Variable beat s : Qc.
Hypothesis beat_pos : (0 < beat)%Qc.
Hypothesis s_pos : (0 < s)%Qc.
Hypothesis s_le : (s <= Q2Qc 0.5 * beat)%Qc.

Lemma melody_loop_exit fuel t out (g : G) :
  Qc_ltb t D = false ->
  melody_loop D fuel prog beat (Q2Qc 4 * beat)%Qc motif t out g = Done (out, g).
Proof. intros E. destruct fuel; cbn [melody_loop]; exact_num; by rewrite E. Qed.

Lemma chord_len_nonzero : (Q2Qc 4 * beat)%Qc <> 0%Qc.
Proof using beat_pos. by apply four_beats_nonzero. Qed.



(** *** Arpeggio *)

Lemma arpeggio_loop_exit fuel style t idx out (g : G) :
  Qc_ltb t D = false ->
  arpeggio_loop D fuel prog beat (Q2Qc 0.5 * beat)%Qc style t idx out g = Done (out, g).
Proof. intros E. destruct fuel; cbn [arpeggio_loop]; exact_num; by rewrite E. Qed.


Lemma arpeggio_loop_unfold fuel style t idx out (g : G) :
  Qc_ltb t D = true ->
  arpeggio_loop D (S fuel) prog beat (Q2Qc 0.5 * beat)%Qc style t idx out g =
    (root ← cyclic prog (Qc_trunc (t / (Q2Qc 4 * beat)));
     notes ← or_raise KeyError (chord_notes !! root);
     '(notes, g') ← arrange style notes g;
     let dur := py_min (Q2Qc 0.5 * beat)%Qc (D - t)%Qc in
     note ← cyclic notes idx;
     arpeggio_loop D fuel prog beat (Q2Qc 0.5 * beat)%Qc style (t + dur)%Qc (idx + 1)%Z
       (out ++ [(note, dur, t)]) g').
Proof using beat_pos.
  intros E. cbn [arpeggio_loop]. exact_num. rewrite E.
  rewrite (py_div_Qc _ _ chord_len_nonzero). run_bind.
  unfold py_int. exact_num. run_bind.
  destruct (cyclic prog _) as [root | |]; run_bind; try done.
  destruct (chord_notes !! root) as [notes |]; run_bind; try done.
  unfold arrange.
  destruct (if bool_decide (style = "asc") then _ else _) as [n1 | |]; run_bind; try done.
  destruct (if bool_decide (style = "desc") then _ else _) as [n2 | |]; run_bind; done.
Qed.


Lemma arrange_perm style notes (g : G) :
  Forall (fun n => is_Some (note_freqs !! n)) notes ->
  exists notes' g', arrange style notes g = Done (notes', g') /\ notes' ≡ₚ notes.
Proof.
  intros Hn. unfold arrange.
  assert (H1 : exists n1,
    (if bool_decide (style = "asc") then sort_notes (T:=Qc) false notes else Done notes)
      = Done n1 /\ n1 ≡ₚ notes).
  { destruct (bool_decide (style = "asc")); [by apply sort_notes_perm | by exists notes]. }
  destruct H1 as (n1 & -> & Hp1). run_bind.
  assert (Hn1 : Forall (fun n => is_Some (note_freqs !! n)) n1) by by rewrite Hp1.
  assert (H2 : exists n2,
    (if bool_decide (style = "desc") then sort_notes (T:=Qc) true n1 else Done n1)
      = Done n2 /\ n2 ≡ₚ n1).
  { destruct (bool_decide (style = "desc")); [by apply sort_notes_perm | by exists n1]. }
  destruct H2 as (n2 & -> & Hp2). run_bind.
  destruct (bool_decide (style = "rand")).
  - pose proof (random_shuffle_perm _ n2 g) as Hs.
    destruct (random_shuffle n2 g) as [n3 g']. exists n3, g'. split; [done |].
    cbn [fst] in Hs. by rewrite Hs, Hp2.
  - exists n2, g. split; [done |]. by rewrite Hp2.
Qed.



End RandomLayers.

(** ** The four clocked layers *)


Section Layers.
Context {G : Type} {RG : @PyRandom Qc G Qc_number}.
Variables (D bpm : Qc) (prog motif : list string) (fuel : nat).
Hypothesis bpm_pos : (0 < bpm)%Qc.
Hypothesis D_pos : (0 < D)%Qc.
Hypothesis fuel_ok : enough_fuel D bpm fuel.

Lemma bpm_beat_pos : (0 < beat_of bpm)%Qc.
Proof using bpm_pos. by apply beat_pos. Qed.

Lemma bpm_half_beat : (0 < Q2Qc 0.5 * beat_of bpm)%Qc.
Proof using bpm_pos. apply Qcmult_pos_pos; [by vm_compute | apply bpm_beat_pos]. Qed.

Lemma bpm_half_le_four : (Q2Qc 0.5 * beat_of bpm <= Q2Qc 4 * beat_of bpm)%Qc.
Proof using bpm_pos.
  apply Qcmult_le_mono_nonneg_r; [apply Qclt_le_weak, bpm_beat_pos | by vm_compute].
Qed.

Lemma fuel_covers : (D - 0 <= times fuel (Q2Qc 0.5 * beat_of bpm))%Qc.
Proof using bpm_pos fuel_ok.
  pose proof (iterations_bound_enough D _ fuel bpm_half_beat fuel_ok).
  clear D_pos. qc_lra.
Qed.

Lemma bpm_nonzero : bpm <> 0%Qc.
Proof using bpm_pos.
  intros H. pose proof bpm_pos as Hp. rewrite H in Hp.
  by apply (irreflexivity Qclt) in Hp.
Qed.

Lemma make_bass_eq :
  make_bass D fuel prog bpm = bass_loop D fuel prog (beat_of bpm) 0%Qc 0%Z [].
Proof using bpm_pos. unfold make_bass. by rewrite (py_div_Qc _ _ bpm_nonzero). Qed.

Lemma make_pads_eq :
  make_pads D fuel prog bpm
    = pads_loop D fuel prog (Q2Qc 4 * beat_of bpm)%Qc 0%Qc 0%Z [].
Proof using bpm_pos. unfold make_pads. by rewrite (py_div_Qc _ _ bpm_nonzero). Qed.

Lemma make_melody_eq (g : G) :
  make_melody D fuel prog bpm motif g
    = melody_loop D fuel prog (beat_of bpm) (Q2Qc 4 * beat_of bpm)%Qc motif 0%Qc [] g.
Proof using bpm_pos. unfold make_melody. by rewrite (py_div_Qc _ _ bpm_nonzero). Qed.

Lemma make_arpeggio_eq (g : G) :
  make_arpeggio D fuel prog bpm g
    = ('(style, g') ← random_choice ["asc"; "desc"; "rand"] g;
       arpeggio_loop D fuel prog (beat_of bpm) (Q2Qc 0.5 * beat_of bpm)%Qc style
         0%Qc 0%Z [] g').
Proof using bpm_pos. unfold make_arpeggio. by rewrite (py_div_Qc _ _ bpm_nonzero). Qed.

Lemma make_bass_terminates : make_bass D fuel prog bpm <> OutOfFuel.
Proof using bpm_pos fuel_ok.
  rewrite make_bass_eq.
  destruct (bass_loop_spec D prog (beat_of bpm) _ bpm_half_beat bpm_half_le_four
              fuel 0%Qc 0%Z [] fuel_covers) as [[e ->] | (evs & -> & _)]; done.
Qed.








End Layers.

(** ** Theorems about the clocked layers *)






(** ** The one-second scenario *)

Lemma one_second_beat : (0 < beat_of (Q2Qc 120))%Qc.
Proof. reflexivity. Qed.

(** C9: with a total duration of 1 second, 120 bpm and a progression that
    repeats one chord, the bassline is the single event [(root, 1, 0)] (four
    beats, 2 seconds, clamped to the 1 second that remains) and the arpeggio
    has exactly four events of 0.25 seconds, at 0, 0.25, 0.5 and 0.75. *)
Theorem one_second_scenario {G : Type} {RG : @PyRandom Qc G Qc_number}
    (root : string) (n fuel : nat) (g : G) :
  (0 < n)%nat -> (4 <= fuel)%nat -> is_Some (chord_notes !! root) ->
  make_bass 1%Qc fuel (replicate n root) (Q2Qc 120) = Done [(root, 1%Qc, 0%Qc)] /\
  exists n1 n2 n3 n4 g',
    make_arpeggio 1%Qc fuel (replicate n root) (Q2Qc 120) g
      = Done ([ (n1, Q2Qc 0.25, 0%Qc); (n2, Q2Qc 0.25, Q2Qc 0.25);
                (n3, Q2Qc 0.25, Q2Qc 0.5); (n4, Q2Qc 0.25, Q2Qc 0.75) ], g').
Proof.
  intros Hn Hfuel [notes Hnotes].
  destruct fuel as [| [| [| [| fuel]]]]; try lia. clear Hfuel.
  assert (Hbpm : (0 < Q2Qc 120)%Qc) by reflexivity.
  split.
  - rewrite (make_bass_eq _ _ _ _ Hbpm).
    rewrite bass_loop_unfold by reflexivity.
    rewrite cyclic_replicate by done. run_bind.
    rewrite bass_loop_exit by reflexivity.
    cbn [app]. do 3 f_equal; apply Qc_is_canon; reflexivity.
  - rewrite (make_arpeggio_eq _ _ _ _ Hbpm).
    destruct (random_choice_cases ["asc"; "desc"; "rand"] g)
      as [[? _] | (style & g0 & -> & _)]; [done |].
    run_bind.
    pose proof (chord_notes_lookup _ _ Hnotes) as [Hlen Hfreqs].
    assert (Hstep : forall f t idx out (g1 : G),
      Qc_ltb t 1%Qc = true ->
      exists note g2,
        arpeggio_loop 1%Qc (S f) (replicate n root) (beat_of (Q2Qc 120))
          (Q2Qc 0.5 * beat_of (Q2Qc 120))%Qc style t idx out g1
        = arpeggio_loop 1%Qc f (replicate n root) (beat_of (Q2Qc 120))
            (Q2Qc 0.5 * beat_of (Q2Qc 120))%Qc style
            (t + py_min (Q2Qc 0.5 * beat_of (Q2Qc 120))%Qc (1 - t)%Qc)%Qc (idx + 1)%Z
            (out ++ [(note, py_min (Q2Qc 0.5 * beat_of (Q2Qc 120))%Qc (1 - t)%Qc, t)]) g2).
    { intros f t idx out g1 Ht.
      rewrite (arpeggio_loop_unfold _ _ _ one_second_beat) by done.
      rewrite cyclic_replicate by done. run_bind. rewrite Hnotes. run_bind.
      destruct (arrange_perm style notes g1 Hfreqs) as (notes' & g2 & -> & Hperm).
      run_bind.
      destruct (cyclic_cases notes' idx) as [[-> _] | (note & -> & _)].
      { apply Permutation_length in Hperm. by rewrite Hlen in Hperm. }
      run_bind. by exists note, g2. }
    set (step := (Q2Qc 0.5 * beat_of (Q2Qc 120))%Qc) in *.
    assert (Hd0 : py_min step (1 - 0)%Qc = Q2Qc 0.25) by (apply Qc_is_canon; reflexivity).
    assert (Hd1 : py_min step (1 - Q2Qc 0.25)%Qc = Q2Qc 0.25)
      by (apply Qc_is_canon; reflexivity).
    assert (Hd2 : py_min step (1 - Q2Qc 0.5)%Qc = Q2Qc 0.25)
      by (apply Qc_is_canon; reflexivity).
    assert (Hd3 : py_min step (1 - Q2Qc 0.75)%Qc = Q2Qc 0.25)
      by (apply Qc_is_canon; reflexivity).
    assert (Ht1 : (0 + Q2Qc 0.25)%Qc = Q2Qc 0.25) by (apply Qc_is_canon; reflexivity).
    assert (Ht2 : (Q2Qc 0.25 + Q2Qc 0.25)%Qc = Q2Qc 0.5) by (apply Qc_is_canon; reflexivity).
    assert (Ht3 : (Q2Qc 0.5 + Q2Qc 0.25)%Qc = Q2Qc 0.75) by (apply Qc_is_canon; reflexivity).
    assert (Ht4 : (Q2Qc 0.75 + Q2Qc 0.25)%Qc = 1%Qc) by (apply Qc_is_canon; reflexivity).
    destruct (Hstep (S (S (S fuel))) 0%Qc 0%Z [] g0 eq_refl) as (n1 & g1 & Heq1).
    rewrite Hd0, Ht1 in Heq1.
    destruct (Hstep (S (S fuel)) (Q2Qc 0.25) (0 + 1)%Z ([] ++ [(n1, Q2Qc 0.25, 0%Qc)]) g1
                eq_refl) as (n2 & g2 & Heq2).
    rewrite Hd1, Ht2 in Heq2.
    destruct (Hstep (S fuel) (Q2Qc 0.5) (0 + 1 + 1)%Z
                (([] ++ [(n1, Q2Qc 0.25, 0%Qc)]) ++ [(n2, Q2Qc 0.25, Q2Qc 0.25)]) g2
                eq_refl) as (n3 & g3 & Heq3).
    rewrite Hd2, Ht3 in Heq3.
    destruct (Hstep fuel (Q2Qc 0.75) (0 + 1 + 1 + 1)%Z
                ((([] ++ [(n1, Q2Qc 0.25, 0%Qc)]) ++ [(n2, Q2Qc 0.25, Q2Qc 0.25)])
                 ++ [(n3, Q2Qc 0.25, Q2Qc 0.5)]) g3 eq_refl) as (n4 & g4 & Heq4).
    rewrite Hd3, Ht4 in Heq4.
    exists n1, n2, n3, n4, g4.
    eapply eq_trans; [exact Heq1 |].
    eapply eq_trans; [exact Heq2 |].
    eapply eq_trans; [exact Heq3 |].
    eapply eq_trans; [exact Heq4 |].
    by rewrite (arpeggio_loop_exit 1%Qc) by reflexivity.
Qed.

Lemma one_second_scenario_witness :
  make_bass 1%Qc 6 (replicate 4 "A3") (Q2Qc 120) = Done [("A3", 1%Qc, 0%Qc)] /\
  exists n1 n2 n3 n4 g',
    make_arpeggio (G:=N) 1%Qc 6 (replicate 4 "A3") (Q2Qc 120) 5%N
      = Done ([ (n1, Q2Qc 0.25, 0%Qc); (n2, Q2Qc 0.25, Q2Qc 0.25);
                (n3, Q2Qc 0.25, Q2Qc 0.5); (n4, Q2Qc 0.25, Q2Qc 0.75) ], g').
Proof.
  apply (one_second_scenario (RG:=lcg_random)).
  - lia.
  - lia.
  - by eexists.
Defined.

(** ** Drums *)


Section Drums.
Context {G : Type} {RG : @PyRandom Qc G Qc_number}.
Variables D beat : Qc.



End Drums.

Lemma beat_nonzero (bpm : Qc) : bpm <> 0%Qc -> beat_of bpm <> 0%Qc.
Proof.
  intros Hbpm Hz. unfold beat_of in Hz.
  assert (H : (Q2Qc 60 / bpm * bpm)%Qc = Q2Qc 60) by (field; done).
  rewrite Hz in H. by apply (f_equal this) in H.
Qed.



Example slot_pattern_phases :
  let beat := Q2Qc 0.5 in
  slot_pattern (Q2Qc 4) beat 0 = [("kick", Q2Qc 0.08, 0%Qc); ("hihat", Q2Qc 0.06, 0%Qc);
                                  ("hihat", Q2Qc 0.04, Q2Qc 0.125)] /\
  slot_pattern (Q2Qc 4) beat 1 = [("snare", Q2Qc 0.08, Q2Qc 0.5); ("hihat", Q2Qc 0.06, Q2Qc 0.5);
                                  ("hihat", Q2Qc 0.04, Q2Qc 0.625)] /\
  slot_pattern (Q2Qc 4) beat 5 = [("snare", Q2Qc 0.08, Q2Qc 2.5); ("clap", Q2Qc 0.08, Q2Qc 2.5);
                                  ("hihat", Q2Qc 0.06, Q2Qc 2.5);
                                  ("hihat", Q2Qc 0.04, Q2Qc 2.625)].
Proof. repeat split; qc_refl. Qed.

(** * The mixer *)

Section Mixer.
Context {T G : Type} `{NT : Number T}.

Lemma slice_bound_id (n i : Z) : (0 <= i <= n)%Z -> slice_bound n i = i.
Proof. intros Hi. unfold slice_bound. destruct (Z.ltb_spec i 0); lia. Qed.

Lemma slice_bound_range (n i : Z) : (0 <= n)%Z -> (0 <= slice_bound n i <= n)%Z.
Proof. intros Hn. unfold slice_bound. destruct (Z.ltb_spec i 0); lia. Qed.

Lemma iadd_slice_length (buf : list T) (i0 i1 : Z) (rhs buf' : list T) :
  iadd_slice buf i0 i1 rhs = Done buf' -> length buf' = length buf.
Proof.
  unfold iadd_slice. case_decide.
  - intros [= <-]. apply length_imap.
  - destruct rhs as [| y [| ? ?]]; try done. intros [= <-]. apply length_imap.
Qed.

Lemma lookup_add_at (lo : nat) (rhs buf : list T) (j : nat) :
  imap (add_at lo rhs) buf !! j = add_at lo rhs j <$> buf !! j.
Proof. apply list_lookup_imap. Qed.

Lemma add_at_before (lo : nat) (rhs : list T) (j : nat) (x : T) :
  (j < lo)%nat -> add_at lo rhs j x = x.
Proof. intros Hj. unfold add_at. case_decide; [lia | done]. Qed.

Lemma add_at_after (lo : nat) (rhs : list T) (j : nat) (x : T) :
  (lo + length rhs <= j)%nat -> add_at lo rhs j x = x.
Proof.
  intros Hj. unfold add_at. case_decide; [| done].
  rewrite lookup_ge_None_2; [done | lia].
Qed.

Lemma add_at_inside (lo : nat) (rhs : list T) (j : nat) (x y : T) :
  (lo <= j)%nat -> rhs !! (j - lo)%nat = Some y -> add_at lo rhs j x = (x + y)%num.
Proof. intros Hj Hy. unfold add_at. case_decide; [by rewrite Hy | lia]. Qed.

(** The slice that the mixer writes, for a start inside the buffer. *)
Lemma iadd_slice_clamped (buf data : list T) (i0 : Z) :
  let N := Z.of_nat (length buf) in
  let i1 := Z.min (i0 + Z.of_nat (length data)) N in
  (0 <= i0 < N)%Z ->
  iadd_slice buf i0 i1 (slice_to data (i1 - i0))
    = Done (imap (add_at (Z.to_nat i0) (take (Z.to_nat (i1 - i0)) data)) buf)
  /\ length (take (Z.to_nat (i1 - i0)) data) = Z.to_nat (i1 - i0).
Proof.
  intros N i1 Hi0.
  assert (Hi1 : (i0 <= i1 <= N)%Z) by (subst i1; lia).
  assert (Hk : (0 <= i1 - i0 <= Z.of_nat (length data))%Z) by (subst i1; lia).
  assert (Hslice : slice_to data (i1 - i0) = take (Z.to_nat (i1 - i0)) data).
  { unfold slice_to. by rewrite slice_bound_id. }
  assert (Hlen : length (take (Z.to_nat (i1 - i0)) data) = Z.to_nat (i1 - i0)).
  { rewrite length_take. lia. }
  split; [| done].
  unfold iadd_slice. fold N. rewrite !slice_bound_id by lia. rewrite Hslice.
  rewrite decide_True; [done |]. rewrite Hlen. lia.
Qed.

Lemma add_event_dropped (N : Z) (buf : list T) (name : string) (dur start vol : T)
    (gen_fn : string -> T -> G -> outcome (list T * G)) (g g' : G) (i0 : Z) (wave : list T) :
  num_trunc (start * SR)%num = Some i0 ->
  gen_fn name dur g = Done (wave, g') ->
  (N <= i0)%Z ->
  add_event N buf (name, dur, start) gen_fn vol g = Done (buf, g').
Proof.
  intros Hi0 Hgen HN. unfold add_event, py_int. rewrite Hi0. cbn.
  rewrite Hgen. cbn. destruct (Z.ltb_spec i0 N); [lia | done].
Qed.

Lemma add_event_inside (buf : list T) (name : string) (dur start vol : T)
    (gen_fn : string -> T -> G -> outcome (list T * G)) (g g' : G) (i0 : Z) (wave : list T) :
  let N := Z.of_nat (length buf) in
  let data := map (fun x => (x * vol)%num) wave in
  let i1 := Z.min (i0 + Z.of_nat (length wave)) N in
  num_trunc (start * SR)%num = Some i0 ->
  gen_fn name dur g = Done (wave, g') ->
  (0 <= i0 < N)%Z ->
  add_event N buf (name, dur, start) gen_fn vol g
    = Done (imap (add_at (Z.to_nat i0) (take (Z.to_nat (i1 - i0)) data)) buf, g').
Proof.
  intros N data i1 Hi0 Hgen HN. unfold add_event, py_int. rewrite Hi0. cbn.
  rewrite Hgen. cbn. fold data.
  destruct (Z.ltb_spec i0 N); [| lia].
  assert (Hi1 : Z.min (i0 + Z.of_nat (length data)) N = i1).
  { subst i1 data. by rewrite length_map. }
  rewrite Hi1.
  destruct (iadd_slice_clamped buf data i0) as [Hs _]; [done |].
  cbn zeta in Hs. fold N in Hs. rewrite Hi1 in Hs. by rewrite Hs.
Qed.

Lemma add_event_length (N : Z) (buf : list T) (ev : @event T)
    (gen_fn : string -> T -> G -> outcome (list T * G)) (vol : T) (g g' : G) (buf' : list T) :
  add_event N buf ev gen_fn vol g = Done (buf', g') -> length buf' = length buf.
Proof.
  destruct ev as [[name dur] start]. unfold add_event.
  destruct (py_int _) as [i0 | |]; cbn; try done.
  destruct (gen_fn name dur g) as [[wave g1] | |]; cbn; try done.
  destruct (i0 <? N)%Z.
  - destruct (iadd_slice _ _ _ _) as [b | |] eqn:Hs; cbn; try done.
    intros [= <- <-]. by eapply iadd_slice_length.
  - by intros [= <- <-].
Qed.

Lemma add_events_loop_length (N : Z) (events : list (@event T))
    (gen_fn : string -> T -> G -> outcome (list T * G)) (vol : T) :
  forall (buf : list T) (g g' : G) (buf' : list T),
  add_events_loop N buf events gen_fn vol g = Done (buf', g') -> length buf' = length buf.
Proof.
  induction events as [| ev events IH]; intros buf g g' buf'; cbn [add_events_loop].
  - by intros [= <- <-].
  - destruct (add_event N buf ev gen_fn vol g) as [[b1 g1] | |] eqn:Hev; cbn; try done.
    intros Hrest. apply IH in Hrest. apply add_event_length in Hev. lia.
Qed.

Lemma add_events_length (buf : list T) (events : list (@event T))
    (gen_fn : string -> T -> G -> outcome (list T * G)) (vol : T) (g g' : G) (buf' : list T) :
  add_events buf events gen_fn vol g = Done (buf', g') -> length buf' = length buf.
Proof. apply add_events_loop_length. Qed.

End Mixer.

(** C5: the mixer never writes outside the buffer.  Whatever the events,
    the synthesiser and the volume, a call that returns leaves the length of
    the buffer unchanged; an event whose start index [i0] is at or past the
    length [N] leaves the buffer as it is, in particular an event that starts
    exactly at the total duration, for which [i0 = N]; and an event whose
    start index is inside the buffer changes no sample before [i0] and none
    at or after [i1 = min (i0 + len waveform) N], which is at most [N]. *)
Theorem mixer_stays_in_bounds {T G : Type} `{NT : Number T}
    (gen_fn : string -> T -> G -> outcome (list T * G)) (vol : T) (buf : list T) (g : G) :
  let N := Z.of_nat (length buf) in
  (forall events buf' g',
     add_events buf events gen_fn vol g = Done (buf', g') -> length buf' = length buf) /\
  (forall name dur start i0 wave g',
     num_trunc (start * SR)%num = Some i0 -> gen_fn name dur g = Done (wave, g') ->
     (N <= i0)%Z ->
     add_event N buf (name, dur, start) gen_fn vol g = Done (buf, g')) /\
  (forall name dur DURATION wave g',
     num_trunc (DURATION * SR)%num = Some N -> gen_fn name dur g = Done (wave, g') ->
     add_event N buf (name, dur, DURATION) gen_fn vol g = Done (buf, g')) /\
  (forall name dur start i0 wave g',
     num_trunc (start * SR)%num = Some i0 -> gen_fn name dur g = Done (wave, g') ->
     (0 <= i0 < N)%Z ->
     let i1 := Z.min (i0 + Z.of_nat (length wave)) N in
     exists buf',
       add_event N buf (name, dur, start) gen_fn vol g = Done (buf', g') /\
       length buf' = length buf /\ (i1 <= N)%Z /\
       forall j : nat, (Z.of_nat j < i0 \/ i1 <= Z.of_nat j)%Z -> buf' !! j = buf !! j).
Proof.
  intros N. repeat split.
  - intros events buf' g'. apply add_events_length.
  - intros name dur start i0 wave g' Hi0 Hgen HN. by eapply add_event_dropped.
  - intros name dur D wave g' Hi0 Hgen.
    eapply add_event_dropped; [exact Hi0 | exact Hgen | lia].
  - intros name dur start i0 wave g' Hi0 Hgen HN i1.
    pose proof (add_event_inside buf name dur start vol gen_fn g g' i0 wave Hi0 Hgen HN)
      as Hev.
    cbn zeta in Hev. fold N i1 in Hev.
    eexists. split; [exact Hev |]. split; [apply length_imap |]. split; [lia |].
    intros j Hj. rewrite lookup_add_at.
    destruct (buf !! j) as [x |] eqn:Hx; [| done]. cbn. f_equal.
    destruct Hj as [Hj | Hj].
    + apply add_at_before. lia.
    + apply add_at_after. rewrite length_take, length_map. lia.
Qed.

Lemma mixer_stays_in_bounds_witness :
  let buf := [0; 0; 0; 0]%Qc in
  let gen_fn := fun (_ : string) (_ : Qc) (g : N) => Done ([1; 1]%Qc, g) in
  add_event 4 buf ("x", 1%Qc, Q2Qc (4 # 44100)) gen_fn 1%Qc 0%N = Done (buf, 0%N) /\
  exists buf',
    add_event 4 buf ("x", 1%Qc, Q2Qc (3 # 44100)) gen_fn 1%Qc 0%N = Done (buf', 0%N) /\
    length buf' = 4%nat /\ (Z.min (3 + 2) 4 <= 4)%Z /\
    forall j : nat, (Z.of_nat j < 3 \/ Z.min (3 + 2) 4 <= Z.of_nat j)%Z ->
                    buf' !! j = buf !! j.
Proof.
  intros buf gen_fn.
  destruct (mixer_stays_in_bounds (T:=Qc) gen_fn 1%Qc buf 0%N) as (_ & Hdrop & _ & Hclamp).
  split.
  - apply (Hdrop "x" 1%Qc (Q2Qc (4 # 44100)) 4%Z [1; 1]%Qc 0%N);
      [reflexivity | reflexivity | by vm_compute].
  - apply (Hclamp "x" 1%Qc (Q2Qc (3 # 44100)) 3%Z [1; 1]%Qc 0%N);
      [reflexivity | reflexivity | by vm_compute].
Defined.

(** ** Where an event lands, in exact arithmetic *)

Lemma Qc_trunc_bounds (q : Qc) :
  (0 <= q)%Qc ->
  (0 <= Qc_trunc q)%Z /\ (of_int (Qc_trunc q) <= q)%Qc /\ (q < of_int (Qc_trunc q) + 1)%Qc.
Proof.
  intros Hq. unfold of_int. exact_num.
  assert (Hfl : Qc_trunc q = Qfloor q).
  { unfold Qc_trunc, Qfloor. destruct q as [[n d] Hc].
    cbn [this Qnum Qden]. apply Z.quot_div_nonneg; [| lia].
    unfold Qcle, Qle in Hq. cbn in Hq.
    change (Qred 0) with 0%Q in Hq. cbn in Hq. lia. }
  rewrite Hfl. split; [| split].
  - change 0%Z with (Qfloor 0). apply Qfloor_resp_le.
    unfold Qcle in Hq. by rewrite this_Q2Qc in Hq.
  - unfold Qcle. rewrite this_Q2Qc. apply Qfloor_le.
  - unfold Qclt. rewrite this_plus, !this_Q2Qc.
    pose proof (Qlt_floor q) as Hlt. rewrite inject_Z_plus in Hlt. exact Hlt.
Qed.

(** C3 (as amended): the start index of an event is the truncation
    [i0 = int (start * SR)], so that [i0 <= start * SR < i0 + 1] for a start
    that is not negative, and not the nearest integer; the end index is
    [i1 = min (i0 + len waveform) N]; when [i0 < N] the call returns the
    buffer in which every sample [j] with [i0 <= j < i1] has received the
    sample [j - i0] of the waveform multiplied by the volume, added to what
    was there, and every other sample is as before. *)
Theorem mixer_adds_at_truncated_start {G : Type}
    (gen_fn : string -> Qc -> G -> outcome (list Qc * G)) (vol : Qc) (buf : list Qc)
    (name : string) (dur start : Qc) (wave : list Qc) (g g' : G) :
  let N := Z.of_nat (length buf) in
  let i0 := Qc_trunc (start * SR)%Qc in
  let i1 := Z.min (i0 + Z.of_nat (length wave)) N in
  (0 <= start)%Qc -> gen_fn name dur g = Done (wave, g') -> (i0 < N)%Z ->
  (of_int i0 <= start * SR)%Qc /\ (start * SR < of_int i0 + 1)%Qc /\
  exists buf',
    add_event N buf (name, dur, start) gen_fn vol g = Done (buf', g') /\
    length buf' = length buf /\
    forall (j : nat) (x : Qc), buf !! j = Some x ->
      ((i0 <= Z.of_nat j < i1)%Z ->
         exists w, wave !! Z.to_nat (Z.of_nat j - i0) = Some w /\
                   buf' !! j = Some (x + w * vol)%Qc) /\
      (~ (i0 <= Z.of_nat j < i1)%Z -> buf' !! j = Some x).
Proof.
  intros N i0 i1 Hstart Hgen HN.
  assert (Hpos : (0 <= start * SR)%Qc).
  { apply Qcmult_nonneg_nonneg; [done | by vm_compute]. }
  destruct (Qc_trunc_bounds _ Hpos) as (Hi0 & Hlo & Hhi). fold i0 in Hi0, Hlo, Hhi.
  split; [done |]. split; [done |].
  assert (Htr : num_trunc (start * SR)%num = Some i0) by done.
  pose proof (add_event_inside buf name dur start vol gen_fn g g' i0 wave Htr Hgen
                (conj Hi0 HN)) as Hev.
  cbn zeta in Hev. fold N i1 in Hev.
  eexists. split; [exact Hev |]. split; [apply length_imap |].
  intros j x Hx. rewrite lookup_add_at, Hx. cbn. split.
  - intros Hj.
    assert (Hw : is_Some (wave !! Z.to_nat (Z.of_nat j - i0))).
    { apply lookup_lt_is_Some. lia. }
    destruct Hw as [w Hw]. exists w. split; [done |]. f_equal.
    apply (add_at_inside (NT:=Qc_number) _ _ _ x (w * vol)%Qc); [lia |].
    rewrite lookup_take_lt by lia. rewrite list_lookup_fmap.
    replace (j - Z.to_nat i0)%nat with (Z.to_nat (Z.of_nat j - i0)) by lia.
    by rewrite Hw.
  - intros Hj. f_equal.
    destruct (Z.lt_ge_cases (Z.of_nat j) i0).
    + apply add_at_before. lia.
    + apply add_at_after. rewrite length_take, length_map. lia.
Qed.

Lemma mixer_adds_at_truncated_start_witness :
  let buf := [0; 0; 0; 0]%Qc in
  let start := Q2Qc (3 # 44100) in
  let wave := [1; 1; 1]%Qc in
  (of_int 3 <= start * SR)%Qc /\ (start * SR < of_int 3 + 1)%Qc /\
  exists buf',
    add_event 4 buf ("x", 1%Qc, start) (fun _ _ (g : N) => Done (wave, g)) 1%Qc 0%N
      = Done (buf', 0%N) /\
    length buf' = length buf /\
    forall (j : nat) (x : Qc), buf !! j = Some x ->
      ((3 <= Z.of_nat j < 4)%Z ->
         exists w, wave !! Z.to_nat (Z.of_nat j - 3) = Some w /\
                   buf' !! j = Some (x + w * 1)%Qc) /\
      (~ (3 <= Z.of_nat j < 4)%Z -> buf' !! j = Some x).
Proof.
  intros buf start wave.
  apply (mixer_adds_at_truncated_start (fun _ _ (g : N) => Done (wave, g)) 1%Qc buf
           "x" 1%Qc start wave 0%N 0%N).
  - by vm_compute.
  - reflexivity.
  - by vm_compute.
Defined.

(** An event that starts 0.882 samples into the buffer: the nearest index
    is 1, the mixer writes at index 0. *)
Lemma mixer_truncates_start :
  let start := Q2Qc (1 # 50000) in
  py_int (start * SR)%Qc = Done 0%Z /\
  spec_round (start * SR)%Qc = 1%Z /\
  add_events [0; 0; 0]%Qc [("x", 1%Qc, start)] (fun _ _ (g : N) => Done ([1%Qc], g)) 1%Qc 0%N
    = Done ([1; 0; 0]%Qc, 0%N).
Proof. repeat split; qc_refl. Qed.

(** ** Unknown symbols *)

Lemma of_int_nonzero (n : Z) : n <> 0%Z -> of_int (T:=Qc) n <> 0%Qc.
Proof.
  intros Hn Hz. unfold of_int in Hz. exact_num.
  apply (f_equal this) in Hz. cbn in Hz.
  assert (H : (inject_Z n == 0)%Q) by (rewrite <- (Qred_correct (inject_Z n)), Hz; reflexivity).
  unfold Qeq, inject_Z in H. cbn in H. lia.
Qed.

Lemma np_linspace_length (stop : Qc) (n : Z) :
  (0 <= n)%Z ->
  exists t, np_linspace 0%Qc stop n = Done t /\ length t = Z.to_nat n.
Proof.
  intros Hn. unfold np_linspace.
  destruct (Z.ltb_spec n 0); [lia |].
  destruct (Z.eqb_spec n 0) as [-> | Hnz]; [by exists [] |].
  unfold np_div. exact_num.
  rewrite (Qc_eq_bool_false _ _ (of_int_nonzero n Hnz)). run_bind.
  eexists. split; [done |]. by rewrite length_map, length_seq.
Qed.

Section UnknownSymbols.
Context {G : Type} {RG : @PyRandom Qc G Qc_number} {TR : Transcendental Qc}.

Lemma drum_sound_unknown (kind : string) (dur : Qc) (g : G) :
  kind ∉ known_kinds -> (0 <= dur)%Qc ->
  drum_sound kind dur g = Done (np_zeros (Z.to_nat (Qc_trunc (SR * dur)%Qc)), g).
Proof.
  intros Hkind Hdur. unfold drum_sound, py_int. exact_num. run_bind.
  assert (Hpos : (0 <= SR * dur)%Qc).
  { apply Qcmult_nonneg_nonneg; [by vm_compute | done]. }
  destruct (Qc_trunc_bounds _ Hpos) as (Hn & _).
  destruct (np_linspace_length dur _ Hn) as (t & Ht & Hlen).
  change (lit 0) with 0%Qc. rewrite Ht. run_bind.
  unfold known_kinds in Hkind. rewrite !not_elem_of_cons in Hkind.
  destruct Hkind as (H1 & H2 & H3 & H4 & _).
  rewrite !bool_decide_eq_false_2 by done. by rewrite Hlen.
Qed.

Lemma tone_unknown (decay : Qc) (n : string) (d : Qc) (g : G) :
  note_freqs !! n = None -> tone decay n d g = Raise KeyError.
Proof. intros Hn. unfold tone. by rewrite Hn. Qed.

(** C2 (as amended): an unrecognised percussion kind is synthesised, for
    a duration that is not negative, as [int (SR * dur)] zeros, and mixing
    such an event at a start that is not negative returns the buffer
    unchanged and goes on.  An unknown note of a tonal layer is not turned
    into silence: the look-up of its frequency raises [KeyError], and the
    call of the mixer, hence the run, stops there. *)
Theorem unknown_symbols (buf : list Qc) (g : G) :
  (forall kind dur start vol,
     kind ∉ known_kinds -> (0 <= dur)%Qc -> (0 <= start)%Qc ->
     drum_sound kind dur g = Done (np_zeros (Z.to_nat (Qc_trunc (SR * dur)%Qc)), g) /\
     forall events,
       add_events buf ((kind, dur, start) :: events) drum vol g
         = add_events buf events drum vol g) /\
  (forall note dur start decay vol events,
     note_freqs !! note = None ->
     tone decay note dur g = Raise KeyError /\
     add_events buf ((note, dur, start) :: events) (tone decay) vol g = Raise KeyError).
Proof.
  split.
  - intros kind dur start vol Hkind Hdur Hstart.
    pose proof (drum_sound_unknown kind dur g Hkind Hdur) as Hdrum.
    split; [done |]. intros events.
    unfold add_events. cbn [add_events_loop].
    assert (Hpos : (0 <= start * SR)%Qc).
    { apply Qcmult_nonneg_nonneg; [done | by vm_compute]. }
    destruct (Qc_trunc_bounds _ Hpos) as (Hi0 & _).
    set (i0 := Qc_trunc (start * SR)%Qc) in *.
    assert (Htr : num_trunc (start * SR)%num = Some i0) by done.
    assert (Hev : add_event (Z.of_nat (length buf)) buf (kind, dur, start) drum vol g
                  = Done (buf, g)).
    { destruct (Z.lt_ge_cases i0 (Z.of_nat (length buf))) as [Hin | Hout].
      - rewrite (add_event_inside buf kind dur start vol drum g g i0 _ Htr Hdrum
                   (conj Hi0 Hin)).
        do 2 f_equal.
        set (n := Z.to_nat (Qc_trunc (SR * dur)%Qc)).
        apply list_eq. intros j. rewrite lookup_add_at.
        destruct (buf !! j) as [x |]; [| done]. cbn. f_equal.
        unfold add_at. case_decide; [| done].
        destruct (take _ _ !! (j - Z.to_nat i0)%nat) as [y |] eqn:Hy; [| done].
        apply lookup_take_Some in Hy as [Hy _].
        rewrite list_lookup_fmap in Hy. unfold np_zeros in Hy.
        destruct (replicate n _ !! (j - Z.to_nat i0)%nat) as [z |] eqn:Hz; [| done].
        apply lookup_replicate in Hz as [-> _]. cbn in Hy. injection Hy as <-.
        exact_num. ring.
      - by apply (add_event_dropped _ buf kind dur start vol drum g g i0 _ Htr Hdrum). }
    rewrite Hev. done.
  - intros note dur start decay vol events Hnote.
    pose proof (tone_unknown decay note dur g Hnote) as Htone.
    split; [done |].
    unfold add_events. cbn [add_events_loop]. unfold add_event, py_int. exact_num.
    run_bind. by rewrite Htone.
Qed.

End UnknownSymbols.

Lemma unknown_symbols_witness :
  drum_sound (G:=N) "cowbell" (Q2Qc (3 # 44100)) 0%N = Done (np_zeros 3, 0%N) /\
  add_events (G:=N) [1; 1; 1]%Qc [("cowbell", Q2Qc (3 # 44100), 0%Qc)] drum 1%Qc 0%N
    = Done ([1; 1; 1]%Qc, 0%N) /\
  tone (G:=N) (Q2Qc 3) "H9" 1%Qc 0%N = Raise KeyError.
Proof.
  destruct (unknown_symbols (RG:=lcg_random) [1; 1; 1]%Qc 0%N) as [Hdrum Htone].
  destruct (Hdrum "cowbell" (Q2Qc (3 # 44100)) 0%Qc 1%Qc) as [Hzeros Hmix].
  { unfold known_kinds. rewrite !not_elem_of_cons. repeat split; try discriminate.
    apply not_elem_of_nil. }
  { by vm_compute. }
  { by vm_compute. }
  split; [exact Hzeros |]. split; [exact (Hmix []) |].
  by apply (Htone "H9" 1%Qc 0%Qc (Q2Qc 3) 1%Qc []).
Defined.

(** A melody event on a note that the pitch table does not have stops the
    mixer, also when known notes follow. *)
Lemma unknown_note_aborts :
  add_events (G:=N) [0; 0; 0]%Qc [("H9", Q2Qc (1 # 44100), 0%Qc); ("C4", Q2Qc (1 # 44100), 0%Qc)]
    (tone (Q2Qc 3)) (Q2Qc 0.9) 0%N = Raise KeyError.
Proof. reflexivity. Qed.

(** ** Mixing is additive *)

Lemma buf_add_length (b c : list Qc) :
  length b = length c -> length (buf_add b c) = length c.
Proof. intros H. unfold buf_add. rewrite length_zip_with. lia. Qed.

Lemma buf_add_zeros (b : list Qc) : buf_add b (np_zeros (length b)) = b.
Proof.
  unfold buf_add, np_zeros. exact_num. induction b as [| x b IH]; [done |].
  cbn [length replicate zip_with]. rewrite IH. f_equal. ring.
Qed.


Lemma imap_add_at_shift (lo : nat) (rhs b c : list Qc) :
  imap (add_at lo rhs) (buf_add b c) = buf_add b (imap (add_at lo rhs) c).
Proof.
  apply list_eq. intros j. unfold buf_add.
  rewrite lookup_add_at, !lookup_zip_with, lookup_add_at.
  destruct (b !! j) as [x |]; [| done].
  destruct (c !! j) as [y |]; [| done]. cbn. f_equal.
  unfold add_at. case_decide; [| done].
  destruct (rhs !! (j - lo)%nat); [| done]. exact_num. ring.
Qed.

Section Additive.
Context {G : Type}.
Implicit Types (gen_fn : string -> Qc -> G -> outcome (list Qc * G)).

Lemma iadd_slice_shift (b c : list Qc) (i0 i1 : Z) (rhs : list Qc) :
  length b = length c ->
  iadd_slice (buf_add b c) i0 i1 rhs = buf_add b <$> iadd_slice c i0 i1 rhs.
Proof.
  intros Hlen. unfold iadd_slice. rewrite (buf_add_length b c Hlen).
  case_decide.
  - cbn. by rewrite imap_add_at_shift.
  - destruct rhs as [| y [| ? ?]]; try done. cbn. by rewrite imap_add_at_shift.
Qed.

Lemma add_event_shift (N : Z) (b c : list Qc) (ev : @event Qc) gen_fn (vol : Qc) (g : G) :
  length b = length c ->
  add_event N (buf_add b c) ev gen_fn vol g = shifted b (add_event N c ev gen_fn vol g).
Proof.
  intros Hlen. destruct ev as [[name dur] start]. unfold add_event, shifted.
  destruct (py_int _) as [i0 | |]; cbn; try done.
  destruct (gen_fn name dur g) as [[wave g1] | |]; cbn; try done.
  destruct (i0 <? N)%Z; [| done].
  rewrite iadd_slice_shift by done.
  by destruct (iadd_slice c _ _ _).
Qed.

Lemma add_events_loop_shift (N : Z) (events : list (@event Qc)) gen_fn (vol : Qc) :
  forall (b c : list Qc) (g : G),
  length b = length c ->
  add_events_loop N (buf_add b c) events gen_fn vol g
    = shifted b (add_events_loop N c events gen_fn vol g).
Proof.
  induction events as [| ev events IH]; intros b c g Hlen; cbn [add_events_loop]; [done |].
  rewrite add_event_shift by done.
  destruct (add_event N c ev gen_fn vol g) as [[c1 g1] | |] eqn:Hev; cbn; try done.
  apply IH. apply add_event_length in Hev. lia.
Qed.

Lemma add_events_shift (b c : list Qc) (events : list (@event Qc)) gen_fn (vol : Qc) (g : G) :
  length b = length c ->
  add_events (buf_add b c) events gen_fn vol g = shifted b (add_events c events gen_fn vol g).
Proof.
  intros Hlen. unfold add_events. rewrite (buf_add_length b c Hlen).
  by apply add_events_loop_shift.
Qed.

Lemma add_events_contribution (buf : list Qc) (l : @layer Qc G) (g : G) :
  add_events buf (layer_events l) (layer_gen l) (layer_vol l) g
    = shifted buf (contribution l (length buf) g).
Proof.
  unfold contribution. rewrite <- add_events_shift.
  - by rewrite buf_add_zeros.
  - unfold np_zeros. by rewrite length_replicate.
Qed.








End Additive.

Section Script.
Context {G : Type} {RG : @PyRandom Qc G Qc_number} {TR : Transcendental Qc}.





End Script.


(** * The normaliser *)

(** ** Exact arithmetic *)

Lemma np_max_step_cases (a b : Qc) :
  (a < b /\ np_max_step a b = b)%Qc \/ (b <= a /\ np_max_step a b = a)%Qc.
Proof.
  unfold np_max_step. exact_num. destruct (Qc_ltb a b) eqn:E.
  - left. by apply Qc_ltb_lt in E.
  - right. by apply Qc_ltb_ge in E.
Qed.

Lemma foldl_np_max (l : list Qc) : forall a : Qc,
  let m := foldl np_max_step a l in
  (a <= m)%Qc /\ Forall (fun x => (x <= m)%Qc) l /\ (m = a \/ m ∈ l).
Proof.
  induction l as [| b l IH]; intros a; cbn [foldl].
  - split; [apply Qcle_refl |]. split; [constructor | by left].
  - destruct (IH (np_max_step a b)) as (H1 & H2 & H3).
    set (m := foldl np_max_step (np_max_step a b) l) in *.
    destruct (np_max_step_cases a b) as [[Hlt Hs] | [Hle Hs]]; rewrite Hs in *.
    + split; [| split].
      * eapply Qcle_trans; [apply Qclt_le_weak; exact Hlt | done].
      * by constructor.
      * right. destruct H3 as [-> | ?]; [left | by right].
    + split; [done |]. split.
      * constructor; [by eapply Qcle_trans | done].
      * destruct H3 as [-> | ?]; [by left | right; by right].
Qed.

Lemma np_max_peak (buf : list Qc) :
  buf <> [] -> exists m, np_max (map Qcabs buf) = Done m /\ is_peak m buf.
Proof.
  destruct buf as [| x buf]; [done |]. intros _. cbn [map np_max].
  eexists. split; [done |].
  destruct (foldl_np_max (map Qcabs buf) (Qcabs x)) as (H1 & H2 & H3).
  set (m := foldl np_max_step (Qcabs x) (map Qcabs buf)) in *.
  split.
  - constructor; [done |]. rewrite Forall_forall in H2. apply Forall_forall.
    intros y Hy. apply H2. apply list_elem_of_fmap. by exists y.
  - destruct H3 as [-> | Hin].
    + exists x. split; [by left | done].
    + apply list_elem_of_fmap in Hin as (y & -> & Hy). exists y. split; [by right | done].
Qed.

Lemma is_peak_unique (m m' : Qc) (buf : list Qc) :
  is_peak m buf -> is_peak m' buf -> m = m'.
Proof.
  intros [Hle (x & Hx & <-)] [Hle' (x' & Hx' & <-)].
  rewrite Forall_forall in Hle, Hle'.
  apply Qcle_antisym; [by apply Hle' | by apply Hle].
Qed.

Lemma is_peak_pos (m : Qc) (buf : list Qc) :
  is_peak m buf -> ~ silent buf -> (0 < m)%Qc.
Proof.
  intros [Hle _] Hns.
  destruct (Qclt_le_dec 0 m) as [? | Hm]; [done |]. exfalso. apply Hns.
  eapply Forall_impl; [exact Hle |]. intros x Hx. cbn in Hx.
  apply Qcabs_null. apply Qcle_antisym; [by eapply Qcle_trans | apply Qcabs_nonneg].
Qed.

Lemma is_peak_scale (m k : Qc) (buf : list Qc) :
  is_peak m buf -> (0 <= k)%Qc -> is_peak (m * k) (map (fun x => (x * k)%Qc) buf).
Proof.
  intros [Hle (x & Hx & <-)] Hk. split.
  - rewrite Forall_forall in Hle. apply Forall_forall. intros z Hz.
    apply list_elem_of_fmap in Hz as (y & -> & Hy).
    rewrite Qcabs_Qcmult, (Qcabs_pos k) by done.
    apply Qcmult_le_mono_nonneg_r; [done | by apply Hle].
  - exists (x * k)%Qc. split.
    + apply list_elem_of_fmap. by exists x.
    + by rewrite Qcabs_Qcmult, (Qcabs_pos k).
Qed.

Lemma normalize_scales (buf : list Qc) :
  ~ silent buf ->
  exists m, is_peak m buf /\ (0 < m)%Qc /\
    normalize buf = Done (map (fun x => (x * (Q2Qc 0.9 / m))%Qc) buf).
Proof.
  intros Hns.
  assert (Hne : buf <> []) by (intros ->; apply Hns; constructor).
  destruct (np_max_peak buf Hne) as (m & Hmax & Hpeak).
  pose proof (is_peak_pos m buf Hpeak Hns) as Hm.
  exists m. split; [done |]. split; [done |].
  unfold normalize. exact_num. rewrite Hmax. run_bind. unfold np_div. exact_num.
  rewrite Qc_eq_bool_false; [done |].
  intros ->. by apply (irreflexivity Qclt) in Hm.
Qed.

Lemma normalize_silent (buf : list Qc) :
  buf <> [] -> silent buf -> normalize buf = Raise FloatingPointError.
Proof.
  intros Hne Hs.
  destruct (np_max_peak buf Hne) as (m & Hmax & Hle & (x & Hx & <-)).
  unfold normalize. exact_num. rewrite Hmax. run_bind. unfold np_div. exact_num.
  unfold silent in Hs. rewrite Forall_forall in Hs. by rewrite (Hs x Hx).
Qed.

(** ** Binary64 *)

Lemma float_max_zeros (n : nat) :
  foldl (np_max_step (T:=float)) 0%float (replicate n 0%float) = 0%float.
Proof. induction n as [| n IH]; [done |]. cbn [replicate foldl]. exact IH. Qed.

Lemma normalize_silent_float (n : nat) :
  normalize (T:=float) (replicate (S n) 0%float) = Done (replicate (S n) nan).
Proof.
  unfold normalize. rewrite fmap_replicate.
  change (num_abs 0%float) with 0%float.
  cbn [replicate np_max]. rewrite float_max_zeros.
  cbn [mbind outcome_mbind outcome_bind np_div or_raise num_div float_number].
  f_equal.
  change (0%float :: replicate n 0%float) with (replicate (S n) 0%float).
  by rewrite fmap_replicate.
Qed.

(** C1 (as amended): the normaliser has no guard.  On an all-zero buffer
    the factor is [0.9 / 0], which is no number: in binary64 it is infinite
    and every sample becomes NaN; in exact arithmetic there is no value to
    return.  On every buffer that has a sample other than zero, the greatest
    absolute value [m] of the samples is positive and every sample is
    multiplied by [0.9 / m]. *)
Theorem normalizer_has_no_guard :
  (forall n, normalize (T:=float) (replicate (S n) 0%float) = Done (replicate (S n) nan)) /\
  (forall buf : list Qc, buf <> [] -> silent buf -> normalize buf = Raise FloatingPointError) /\
  (forall buf : list Qc, ~ silent buf ->
     exists m, is_peak m buf /\ (0 < m)%Qc /\
       normalize buf = Done (map (fun x => (x * (Q2Qc 0.9 / m))%Qc) buf)).
Proof.
  split; [exact normalize_silent_float |].
  split; [exact normalize_silent | exact normalize_scales].
Qed.

Lemma normalizer_has_no_guard_witness :
  let buf := [Q2Qc 3; Q2Qc (-1); Q2Qc 0.5] in
  exists m, is_peak m buf /\ (0 < m)%Qc /\
    normalize buf = Done (map (fun x => (x * (Q2Qc 0.9 / m))%Qc) buf).
Proof.
  intros buf. apply (proj2 (proj2 normalizer_has_no_guard)).
  intros H. apply Forall_cons in H as [H _]. discriminate H.
Defined.

(** The silent buffer of three samples does not come back from the
    normaliser. *)
Lemma silent_buffer_becomes_nan :
  normalize (T:=float) [0; 0; 0]%float = Done [nan; nan; nan] /\
  normalize (T:=float) [0; 0; 0]%float <> Done [0; 0; 0]%float /\
  normalize (T:=Qc) [0; 0; 0]%Qc <> Done [0; 0; 0]%Qc.
Proof.
  split; [reflexivity |]. split.
  - intros H.
    apply (f_equal (fun m => match m with
                             | Done (x :: _) => is_nan x
                             | _ => false
                             end)) in H.
    discriminate.
  - discriminate.
Qed.

(** C6 (as amended): in exact arithmetic the normaliser is idempotent on a
    buffer that is not silent: after one application the greatest absolute
    value of the samples is exactly 0.9, and a second application returns
    the same buffer. *)
Theorem normalize_idempotent_exact (buf : list Qc) :
  ~ silent buf ->
  exists buf', normalize buf = Done buf' /\ is_peak (Q2Qc 0.9) buf' /\
               normalize buf' = Done buf'.
Proof.
  intros Hns. destruct (normalize_scales buf Hns) as (m & Hpeak & Hm & Hnorm).
  set (k := (Q2Qc 0.9 / m)%Qc) in *.
  assert (Hk : (0 < k)%Qc) by (apply Qc_div_pos; [by vm_compute | done]).
  assert (Hmk : (m * k)%Qc = Q2Qc 0.9).
  { subst k. field. intros ->. by apply (irreflexivity Qclt) in Hm. }
  pose proof (is_peak_scale m k buf Hpeak (Qclt_le_weak _ _ Hk)) as Hpeak'.
  rewrite Hmk in Hpeak'.
  exists (map (fun x => (x * k)%Qc) buf). split; [done |]. split; [done |].
  assert (Hns' : ~ silent (map (fun x => (x * k)%Qc) buf)).
  { intros Hs. destruct Hpeak' as [_ (y & Hy & Habs)].
    unfold silent in Hs. rewrite Forall_forall in Hs. rewrite (Hs y Hy) in Habs.
    apply (f_equal this) in Habs. by vm_compute in Habs. }
  destruct (normalize_scales _ Hns') as (m' & Hp' & _ & ->).
  rewrite (is_peak_unique _ _ _ Hp' Hpeak').
  f_equal. rewrite <- (list_fmap_id (map _ buf)) at 2.
  apply list_fmap_ext. intros _ y _. cbn. field. discriminate.
Qed.

Lemma normalize_idempotent_exact_witness :
  exists buf', normalize [Q2Qc 3; Q2Qc (-1); Q2Qc 0.5] = Done buf' /\
               is_peak (Q2Qc 0.9) buf' /\ normalize buf' = Done buf'.
Proof.
  apply normalize_idempotent_exact.
  intros H. apply Forall_cons in H as [H _]. discriminate H.
Defined.

(** In binary64 the buffer [3.0] is normalised to [0.8999999999999999],
    which is not 0.9, and normalising that again gives [0.9000000000000001]. *)
Lemma normalize_rounds_in_binary64 :
  normalize (T:=float) [3%float] = Done [0x1.cccccccccccccp-1%float] /\
  0x1.cccccccccccccp-1%float <> 0.9%float /\
  normalize (T:=float) [0x1.cccccccccccccp-1%float] = Done [0x1.ccccccccccccep-1%float] /\
  0x1.ccccccccccccep-1%float <> 0x1.cccccccccccccp-1%float.
Proof.
  repeat split; try reflexivity.
  - intros H. apply (f_equal (fun x => PrimFloat.ltb x 0.9%float)) in H. discriminate.
  - intros H. apply (f_equal (fun x => PrimFloat.ltb 0.9%float x)) in H. discriminate.
Qed.

(** * Further properties of the program

    What follows covers the parts of the program that the theorems above
    leave aside: the conversion to PCM, the contents of every layer event by
    event, the tempi, progressions and durations that the script never
    draws, what the synthesisers and the mixer accept, the mixer as a linear
    map, the whole script from the random draws to the PCM bytes, and the
    helper that names the output file.  As above, time and amplitude are
    exact rationals unless binary64 is named. *)

(** ** Truncation *)

Lemma this_Qcopp (q : Qc) : this (- q)%Qc = Qopp (this q).
Proof.
  unfold Qcopp, Q2Qc. cbn [this]. rewrite Qred_opp. f_equal. apply canon.
Qed.

Lemma Qc_trunc_opp (q : Qc) : Qc_trunc (- q)%Qc = (- Qc_trunc q)%Z.
Proof.
  unfold Qc_trunc. rewrite this_Qcopp. destruct q as [[n d] Hc]. cbn [this Qopp Qnum Qden].
  apply Z.quot_opp_l. lia.
Qed.

Lemma Qc_trunc_le (q : Qc) (b : Z) :
  (0 <= q)%Qc -> (q < of_int (b + 1))%Qc -> (0 <= Qc_trunc q <= b)%Z.
Proof.
  intros H0 Hb. destruct (Qc_trunc_bounds q H0) as (Hz & Hle & _). split; [done |].
  assert (Hlt : (of_int (T:=Qc) (Qc_trunc q) < of_int (b + 1))%Qc) by (by eapply Qcle_lt_trans).
  unfold of_int, Qclt in Hlt. cbn [num_lit Qc_number] in Hlt. rewrite !this_Q2Qc in Hlt.
  rewrite <- Zlt_Qlt in Hlt. lia.
Qed.

Lemma Qc_trunc_abs_le (q : Qc) (b : Z) :
  (Qcabs q < of_int (b + 1))%Qc -> (- b <= Qc_trunc q <= b)%Z.
Proof.
  intros Hb. destruct (Qclt_le_dec q 0) as [Hneg | Hpos].
  - rewrite Qcabs_neg in Hb by (by apply Qclt_le_weak).
    assert (H0 : (0 <= - q)%Qc) by qc_lra.
    pose proof (Qc_trunc_le _ _ H0 Hb) as H. rewrite Qc_trunc_opp in H. lia.
  - rewrite Qcabs_pos in Hb by done.
    pose proof (Qc_trunc_le _ _ Hpos Hb). lia.
Qed.

Lemma Qc_trunc_nonpos (q : Qc) : (q <= 0)%Qc -> (Qc_trunc q <= 0)%Z.
Proof.
  intros Hq. assert (H0 : (0 <= - q)%Qc) by qc_lra.
  destruct (Qc_trunc_bounds _ H0) as [H _]. rewrite Qc_trunc_opp in H. lia.
Qed.

Lemma Qc_trunc_le_minus_one (q : Qc) : (q <= Q2Qc (-1))%Qc -> (Qc_trunc q < 0)%Z.
Proof.
  intros Hq. assert (H0 : (0 <= - q)%Qc) by qc_lra.
  destruct (Qc_trunc_bounds _ H0) as (Hz & _ & Hlt). rewrite Qc_trunc_opp in *.
  assert (Hpos : (0 < of_int (T:=Qc) (- Qc_trunc q))%Qc) by qc_lra.
  unfold of_int, Qclt in Hpos. cbn [num_lit Qc_number] in Hpos. rewrite !this_Q2Qc in Hpos.
  change 0%Q with (inject_Z 0) in Hpos. rewrite <- Zlt_Qlt in Hpos. lia.
Qed.



Lemma of_int_le (a b : Z) : (a <= b)%Z -> (of_int (T:=Qc) a <= of_int b)%Qc.
Proof.
  intros H. unfold of_int, Qcle. cbn [num_lit Qc_number]. rewrite !this_Q2Qc.
  by rewrite <- Zle_Qle.
Qed.


(** ** The conversion to PCM *)

Lemma astype_int16_loud (x : Qc) :
  (Qcabs x <= Q2Qc 0.9)%Qc ->
  exists z, astype_int16 (x * Q2Qc 32767)%Qc = Some z /\ (-29490 <= z <= 29490)%Z /\
    (Qcabs x = Q2Qc 0.9 -> z = 29490%Z \/ z = (-29490)%Z).
Proof.
  intros Hx.
  assert (Hb : (Qcabs (x * Q2Qc 32767) < Q2Qc 29491)%Qc).
  { rewrite Qcabs_Qcmult, (Qcabs_pos (Q2Qc 32767)) by discriminate.
    generalize dependent (Qcabs x). intros a Ha. qc_lra. }
  pose proof (Qc_trunc_abs_le _ 29490 Hb) as Hz.
  exists (Qc_trunc (x * Q2Qc 32767)%Qc). unfold astype_int16. cbn [num_trunc Qc_number].
  rewrite decide_True by lia. split; [done |]. split; [done |].
  intros Hpeak. destruct (Qclt_le_dec x 0) as [Hneg | Hpos].
  - rewrite Qcabs_neg in Hpeak by (by apply Qclt_le_weak).
    right. assert (x = Q2Qc (-0.9)) as -> by qc_lra. reflexivity.
  - rewrite Qcabs_pos in Hpeak by done. left. by rewrite Hpeak.
Qed.

Lemma to_pcm_loud (buf : list Qc) :
  Forall (fun x => (Qcabs x <= Q2Qc 0.9)%Qc) buf ->
  exists pcm, to_pcm buf = Some pcm /\ length pcm = length buf /\
    Forall (fun z => (-29490 <= z <= 29490)%Z) pcm /\
    ((exists x, x ∈ buf /\ Qcabs x = Q2Qc 0.9) -> 29490%Z ∈ pcm \/ (-29490)%Z ∈ pcm).
Proof.
  induction 1 as [| x buf Hx _ IH].
  - exists []. repeat split; try done. intros (x & Hx & _). by apply elem_of_nil in Hx.
  - destruct IH as (pcm & Hpcm & Hlen & Hall & Hpk).
    destruct (astype_int16_loud x Hx) as (z & Hz & Hr & Hzp).
    exists (z :: pcm). unfold to_pcm in *. cbn [mapM]. exact_num.
    rewrite Hz. cbn [mbind option_bind].
    rewrite Hpcm. cbn [mbind option_bind mret option_ret].
    split; [done |]. split; [cbn [length]; by rewrite Hlen |].
    split; [by constructor |].
    intros (y & Hy & Hyp). apply elem_of_cons in Hy as [-> | Hy].
    + destruct (Hzp Hyp) as [-> | ->]; [left | right]; by left.
    + destruct Hpk as [? | ?]; [by exists y | left | right]; by right.
Qed.

Lemma tobytes_length (samples : list Z) :
  length (tobytes samples) = (2 * length samples)%nat.
Proof.
  induction samples as [| z l IH]; [done |].
  cbn. rewrite <- Nat.add_succ_r. unfold tobytes in IH. lia.
Qed.

Lemma normalize_peak (buf : list Qc) :
  ~ silent buf ->
  exists buf', normalize buf = Done buf' /\ is_peak (Q2Qc 0.9) buf' /\
    length buf' = length buf.
Proof.
  intros Hns. destruct (normalize_scales buf Hns) as (m & Hpeak & Hm & Hnorm).
  assert (Hk : (0 <= Q2Qc 0.9 / m)%Qc).
  { apply Qclt_le_weak, Qc_div_pos; [reflexivity | done]. }
  pose proof (is_peak_scale m _ buf Hpeak Hk) as Hscaled.
  assert (Hm9 : (m * (Q2Qc 0.9 / m))%Qc = Q2Qc 0.9).
  { field. intros ->. by apply (irreflexivity Qclt) in Hm. }
  rewrite Hm9 in Hscaled.
  eexists. split; [exact Hnorm |]. split; [done | by rewrite length_map].
Qed.

(** X1: in exact arithmetic, a buffer that is not silent is normalised to
    a buffer that the conversion to 16-bit PCM accepts in full: every sample
    times 32767, truncated, lies between -29490 and 29490, well inside the
    16-bit range, so that nothing wraps around; the loudest sample becomes
    29490 or -29490; and [tobytes] writes two bytes per sample. *)
Theorem normalized_buffer_fits_int16 (buf : list Qc) :
  ~ silent buf ->
  exists buf' pcm,
    normalize buf = Done buf' /\ to_pcm buf' = Some pcm /\
    length pcm = length buf /\
    Forall (fun z => (-29490 <= z <= 29490)%Z) pcm /\
    (29490%Z ∈ pcm \/ (-29490)%Z ∈ pcm) /\
    length (tobytes pcm) = (2 * length buf)%nat.
Proof.
  intros Hns. destruct (normalize_peak buf Hns) as (buf' & Hnorm & [Hle Hex] & Hlen').
  destruct (to_pcm_loud _ Hle) as (pcm & Hpcm & Hlen & Hall & Hpk).
  exists buf', pcm.
  repeat split; try done; [congruence | by apply Hpk | rewrite tobytes_length; congruence].
Qed.

Lemma normalized_buffer_fits_int16_witness :
  exists buf' pcm,
    normalize [Q2Qc 3; Q2Qc (-1.5); 0%Qc] = Done buf' /\ to_pcm buf' = Some pcm /\
    length pcm = length [Q2Qc 3; Q2Qc (-1.5); 0%Qc] /\
    Forall (fun z => (-29490 <= z <= 29490)%Z) pcm /\
    (29490%Z ∈ pcm \/ (-29490)%Z ∈ pcm) /\
    length (tobytes pcm) = (2 * length [Q2Qc 3; Q2Qc (-1.5); 0%Qc])%nat.
Proof.
  apply normalized_buffer_fits_int16.
  intros H. apply Forall_cons in H as [H _]. discriminate.
Defined.

(** ** The clocks of the layers *)

Lemma cyclic_nat (prog : list string) (i : nat) (r : string) :
  cyclic prog (Z.of_nat i) = Done r -> prog !! (i mod length prog)%nat = Some r.
Proof.
  unfold cyclic, py_mod. destruct prog as [| r0 prog]; [done |].
  cbn [length]. run_bind. rewrite <- Nat2Z.inj_mod, Nat2Z.id.
  destruct ((r0 :: prog) !! (i mod S (length prog))%nat); cbn; congruence.
Qed.

Lemma steps_to_cover_last (len step : Qc) :
  (0 < len)%Qc -> (len <= step)%Qc -> steps_to_cover 1 len step.
Proof. intros H1 H2. unfold steps_to_cover. cbn [times Nat.sub]. split; qc_lra. Qed.

Lemma steps_to_cover_next (n : nat) (len step : Qc) :
  (step < len)%Qc -> steps_to_cover n (len - step) step -> steps_to_cover (S n) len step.
Proof.
  intros H1 [H2 H3]. unfold steps_to_cover.
  destruct n as [| n].
  - cbn [times Nat.sub] in *. exfalso. qc_lra.
  - replace (S (S n) - 1)%nat with (S n) by lia.
    replace (S n - 1)%nat with n in H2 by lia.
    cbn [times] in *. split; qc_lra.
Qed.


Section BassEvents.
Variables (D : Qc) (prog : list string) (beat : Qc).
Hypothesis beat_pos : (0 < beat)%Qc.

Lemma four_beats_pos : (0 < Q2Qc 4 * beat)%Qc.
Proof using beat_pos. qc_lra. Qed.

Lemma bass_loop_events fuel : forall t (i : nat) out res,
  bass_loop D fuel prog beat t (Z.of_nat i) out = Done res ->
  exists evs, res = out ++ evs /\
    (if Qc_ltb t D then steps_to_cover (length evs) (D - t) (Q2Qc 4 * beat)%Qc
     else evs = []) /\
    forall k ev, evs !! k = Some ev ->
      prog !! ((i + k) mod length prog)%nat = Some ev.1.1 /\
      ev_start ev = (t + times k (Q2Qc 4 * beat))%Qc /\
      ev_dur ev = py_min (Q2Qc 4 * beat)%Qc (D - ev_start ev)%Qc.
Proof using beat_pos.
  pose proof four_beats_pos as Hcd. set (cd := (Q2Qc 4 * beat)%Qc) in *.
  induction fuel as [| fuel IH]; intros t i out res; destruct (Qc_ltb t D) eqn:E.
  - cbn [bass_loop]. exact_num. by rewrite E.
  - rewrite bass_loop_exit by done. intros [= <-]. exists []. rewrite app_nil_r.
    repeat split; try done.
  - rewrite bass_loop_unfold by done.
    destruct (cyclic prog (Z.of_nat i)) as [root | |] eqn:Hroot; run_bind; try done.
    cbn zeta. fold cd. set (dur := py_min cd (D - t)%Qc).
    replace (Z.of_nat i + 1)%Z with (Z.of_nat (S i)) by lia.
    intros H. apply IH in H as (evs & -> & Hcount & Hevs).
    apply Qc_ltb_lt in E.
    destruct (clamp_step D t cd E Hcd) as (Hdpos & Hdle & Hend & Hfull).
    fold dur in Hdpos, Hdle, Hend, Hfull.
    exists ((root, dur, t) :: evs). split; [by rewrite <- app_assoc |]. split.
    + destruct (Qc_ltb (t + dur) D) eqn:E'.
      * apply Qc_ltb_lt in E'. rewrite (Hfull E') in *.
        cbn [length]. apply steps_to_cover_next; [qc_lra |].
        replace (D - t - cd)%Qc with (D - (t + cd))%Qc by ring. done.
      * subst evs. cbn [length]. apply steps_to_cover_last; [qc_lra |].
        apply Qc_ltb_ge in E'. subst dur.
        destruct (py_min_case cd (D - t)%Qc) as [[? Hm] | [? Hm]]; rewrite Hm in *; qc_lra.
    + intros [| k] ev Hk.
      * injection Hk as <-. cbn [times]. unfold ev_start, ev_dur. cbn [fst snd].
        rewrite Nat.add_0_r. split; [by apply cyclic_nat |]. split; [ring | done].
      * cbn [lookup list_lookup] in Hk.
        assert (Hne : Qc_ltb (t + dur) D = true).
        { destruct (Qc_ltb (t + dur) D); [done |]. subst evs. done. }
        apply Qc_ltb_lt in Hne. rewrite (Hfull Hne) in *.
        destruct (Hevs k ev Hk) as (H1 & H2 & H3).
        replace (i + S k)%nat with (S i + k)%nat by lia. split; [done |].
        split; [| done]. rewrite H2. cbn [times]. ring.
  - rewrite bass_loop_exit by done. intros [= <-]. exists []. rewrite app_nil_r.
    repeat split; try done.
Qed.

End BassEvents.

Section PadsEvents.
Variables (D : Qc) (prog : list string) (beat : Qc).
Hypothesis beat_pos : (0 < beat)%Qc.


End PadsEvents.




Section RandomEvents.
Context {G : Type} {RG : @PyRandom Qc G Qc_number}.
Variables (D : Qc) (prog motif : list string) (beat : Qc).
Hypothesis beat_pos : (0 < beat)%Qc.



End RandomEvents.



(** ** The layers, event by event *)









(** ** Tempi, progressions and durations that the script never draws *)

Lemma beat_neg (bpm : Qc) : (bpm < 0)%Qc -> (beat_of bpm < 0)%Qc.
Proof.
  intros Hb. unfold beat_of.
  assert (H : (0 < Q2Qc 60 / - bpm)%Qc) by (apply beat_pos; qc_lra).
  assert (Hn : bpm <> 0%Qc) by (intros ->; by apply (irreflexivity Qclt) in Hb).
  replace (Q2Qc 60 / bpm)%Qc with (- (Q2Qc 60 / - bpm))%Qc; [qc_lra |].
  field. split; [done |]. intros Hz. apply Hn.
  rewrite <- (Qcopp_involutive bpm), Hz. reflexivity.
Qed.

Lemma py_min_neg (a D t : Qc) :
  (a < 0)%Qc -> (t <= 0)%Qc -> (0 < D)%Qc -> py_min a (D - t)%Qc = a.
Proof.
  intros Ha Ht HD. destruct (py_min_case a (D - t)%Qc) as [[? ->] | [? ->]]; [| done].
  exfalso. qc_lra.
Qed.

Section NegativeTempo.
Context {G : Type} {RG : @PyRandom Qc G Qc_number}.
Variables (D : Qc) (prog motif : list string) (beat : Qc).
Hypothesis D_pos : (0 < D)%Qc.
Hypothesis beat_lt_0 : (beat < 0)%Qc.
Hypothesis prog_ok : valid_progression prog.

Lemma clock_before_zero (t : Qc) : (t <= 0)%Qc -> Qc_ltb t D = true.
Proof using D_pos. intros Ht. apply Qc_ltb_lt. clear beat_lt_0. qc_lra. Qed.

Lemma neg_chord_len : (Q2Qc 4 * beat < 0)%Qc.
Proof using beat_lt_0. clear D_pos. qc_lra. Qed.

Lemma bass_loop_diverges fuel : forall t idx out,
  (t <= 0)%Qc -> bass_loop D fuel prog beat t idx out = OutOfFuel.
Proof using D_pos beat_lt_0 prog_ok.
  destruct prog_ok as [Hne _]. pose proof neg_chord_len as Hcd.
  induction fuel as [| fuel IH]; intros t idx out Ht.
  - cbn [bass_loop]. exact_num. by rewrite clock_before_zero.
  - rewrite bass_loop_unfold by (by apply clock_before_zero).
    destruct (cyclic_cases prog idx) as [[? _] | (root & -> & _)]; [done |]. run_bind.
    cbn zeta. rewrite py_min_neg by done. apply IH. qc_lra.
Qed.

Lemma pads_loop_diverges fuel : forall t idx out,
  (t <= 0)%Qc -> pads_loop D fuel prog (Q2Qc 4 * beat)%Qc t idx out = OutOfFuel.
Proof using D_pos beat_lt_0 prog_ok.
  destruct prog_ok as [Hne Hroots]. pose proof neg_chord_len as Hcd.
  induction fuel as [| fuel IH]; intros t idx out Ht.
  - cbn [pads_loop]. exact_num. by rewrite clock_before_zero.
  - rewrite pads_loop_unfold by (by apply clock_before_zero).
    destruct (cyclic_cases prog idx) as [[? _] | (root & -> & Hroot)]; [done |]. run_bind.
    destruct (proj1 (Forall_forall _ _) Hroots root Hroot) as [notes ->]. run_bind.
    apply IH. qc_lra.
Qed.

Lemma chord_len_neg_nonzero : (Q2Qc 4 * beat)%Qc <> 0%Qc.
Proof using beat_lt_0.
  intros H. pose proof neg_chord_len as Hcd. rewrite H in Hcd.
  by apply (irreflexivity Qclt) in Hcd.
Qed.

Lemma arpeggio_loop_diverges fuel : forall style t idx out (g : G),
  (t <= 0)%Qc ->
  arpeggio_loop D fuel prog beat (Q2Qc 0.5 * beat)%Qc style t idx out g = OutOfFuel.
Proof using D_pos beat_lt_0 prog_ok.
  destruct prog_ok as [Hne Hroots].
  assert (Hstep : (Q2Qc 0.5 * beat < 0)%Qc) by qc_lra.
  induction fuel as [| fuel IH]; intros style t idx out g Ht.
  - cbn [arpeggio_loop]. exact_num. by rewrite clock_before_zero.
  - cbn [arpeggio_loop]. exact_num. rewrite clock_before_zero by done.
    rewrite (py_div_Qc _ _ chord_len_neg_nonzero). run_bind.
    unfold py_int. exact_num. run_bind.
    destruct (cyclic_cases prog (Qc_trunc (t / (Q2Qc 4 * beat)))) as [[? _] | (root & -> & Hroot)];
      [done |]. run_bind.
    destruct (proj1 (Forall_forall _ _) Hroots root Hroot) as [notes Hnotes].
    rewrite Hnotes. run_bind.
    destruct (chord_notes_lookup root notes Hnotes) as [Hlen Hknown].
    destruct (arrange_perm style notes g Hknown) as (arranged & g1 & Harr & Hperm).
    unfold arrange in Harr.
    destruct (if bool_decide (style = "asc") then _ else _) as [n1 | |]; run_bind; try done.
    revert Harr. run_bind.
    destruct (if bool_decide (style = "desc") then _ else _) as [n2 | |]; run_bind; try done.
    intros [= Harr]. rewrite Harr.
    destruct (cyclic_cases arranged idx) as [[-> _] | (note & -> & _)].
    { apply Permutation_length in Hperm. rewrite Hlen in Hperm. done. }
    run_bind. rewrite py_min_neg by done. apply IH. qc_lra.
Qed.

Hypothesis motif_ok : motif <> [].

Lemma melody_loop_diverges fuel : forall t out (g : G),
  (t <= 0)%Qc ->
  melody_loop D fuel prog beat (Q2Qc 4 * beat)%Qc motif t out g = OutOfFuel.
Proof using D_pos beat_lt_0 prog_ok motif_ok.
  destruct prog_ok as [Hne Hroots].
  induction fuel as [| fuel IH]; intros t out g Ht.
  - cbn [melody_loop]. exact_num. by rewrite clock_before_zero.
  - cbn [melody_loop]. exact_num. rewrite clock_before_zero by done.
    rewrite (py_div_Qc _ _ chord_len_neg_nonzero). run_bind.
    unfold py_int. exact_num. run_bind.
    destruct (cyclic_cases prog (Qc_trunc (t / (Q2Qc 4 * beat)))) as [[? _] | (root & -> & Hroot)];
      [done |].
    run_bind. destruct (random_random g) as [r1 g1].
    destruct (proj1 (Forall_forall _ _) Hroots root Hroot) as [notes Hnotes].
    assert (Hpool : exists pool,
      (if Qc_ltb r1 (Q2Qc 0.7) then or_raise KeyError (chord_notes !! root)
       else Done scale) = Done pool /\ pool <> []).
    { destruct (Qc_ltb r1 (Q2Qc 0.7)).
      - exists notes. rewrite Hnotes. split; [done |].
        apply chord_notes_lookup in Hnotes as [Hlen _]. by destruct notes.
      - by exists scale. }
    destruct Hpool as (pool & -> & Hpne). run_bind.
    destruct (random_choice_cases pool g1) as [[? _] | (note & g2 & -> & _)]; [done |].
    run_bind. destruct (random_random g2) as [r2 g3].
    assert (Hover : exists note' g4,
      (if Qc_ltb r2 (Q2Qc 0.2) then random_choice motif g3 else Done (note, g3))
        = Done (note', g4)).
    { destruct (Qc_ltb r2 (Q2Qc 0.2)); [| by eauto].
      destruct (random_choice_cases motif g3) as [[? _] | (n' & g4 & -> & _)]; [done |].
      by eauto. }
    destruct Hover as (note' & g4 & ->). run_bind.
    destruct (duration_choice g4) as (c & g5 & -> & Hc). run_bind.
    pose proof (melody_factor_bounds c Hc) as Hc'.
    assert (Hneg : (c * beat < 0)%Qc).
    { assert (0 < c * - beat)%Qc.
      { apply Qcmult_pos_pos; [| qc_lra]. eapply Qclt_le_trans; [| exact Hc']. by vm_compute. }
      replace (c * - beat)%Qc with (- (c * beat))%Qc in H by ring. qc_lra. }
    rewrite py_min_neg by done. apply IH. qc_lra.
Qed.

End NegativeTempo.

(** X6: in exact arithmetic, with a negative tempo, a positive total
    duration, a progression of chords of the table and a motif that is not
    empty, none of the four clocked generators returns: the step is
    negative, the clock moves away from [D], no iteration raises, and the
    loop runs out of fuel, whatever the amount [fuel]. *)
Theorem negative_tempo_never_returns {G : Type} {RG : @PyRandom Qc G Qc_number}
    (D bpm : Qc) (prog motif : list string) (fuel : nat) (g : G) :
  (bpm < 0)%Qc -> (0 < D)%Qc -> valid_progression prog -> motif <> [] ->
  make_melody D fuel prog bpm motif g = OutOfFuel /\
  make_arpeggio D fuel prog bpm g = OutOfFuel /\
  make_bass D fuel prog bpm = OutOfFuel /\
  make_pads D fuel prog bpm = OutOfFuel.
Proof.
  intros Hbpm HD Hprog Hmotif.
  pose proof (beat_neg bpm Hbpm) as Hbeat.
  assert (Hnz : bpm <> 0%Qc) by (intros ->; by apply (irreflexivity Qclt) in Hbpm).
  unfold make_melody, make_arpeggio, make_bass, make_pads.
  rewrite !(py_div_Qc _ _ Hnz). run_bind. fold (beat_of bpm). exact_num.
  split; [| split; [| split]].
  - by apply melody_loop_diverges.
  - destruct (random_choice_cases ["asc"; "desc"; "rand"] g)
      as [[? _] | (style & g' & -> & _)]; [done |].
    run_bind. by apply arpeggio_loop_diverges.
  - by apply bass_loop_diverges.
  - by apply pads_loop_diverges.
Qed.

Lemma negative_tempo_never_returns_witness :
  make_melody (G:=N) (Q2Qc 15) 1000 ["C3"; "G3"] (Q2Qc (-120)) ["C4"] 7%N = OutOfFuel /\
  make_arpeggio (G:=N) (Q2Qc 15) 1000 ["C3"; "G3"] (Q2Qc (-120)) 7%N = OutOfFuel /\
  make_bass (Q2Qc 15) 1000 ["C3"; "G3"] (Q2Qc (-120)) = OutOfFuel /\
  make_pads (Q2Qc 15) 1000 ["C3"; "G3"] (Q2Qc (-120)) = OutOfFuel.
Proof.
  apply (negative_tempo_never_returns (RG:=lcg_random)).
  - reflexivity.
  - reflexivity.
  - split; [discriminate |]. repeat constructor; by eexists.
  - discriminate.
Defined.

Lemma cyclic_nil (i : Z) : cyclic [] i = Raise ZeroDivisionError.
Proof. done. Qed.

(** X7: a tempo of zero stops each of the five generators with
    [ZeroDivisionError], from [60 / bpm], whatever the other arguments.  An
    empty progression, with a tempo other than zero and a positive duration,
    stops the four clocked generators with [ZeroDivisionError] too, from
    [% len(prog)] in their first iteration, not with [IndexError]. *)
Theorem zero_tempo_and_empty_progression {G : Type} {RG : @PyRandom Qc G Qc_number}
    (D : Qc) (motif : list string) (fuel : nat) (g : G) :
  (forall prog,
     make_melody D fuel prog 0%Qc motif g = Raise ZeroDivisionError /\
     make_arpeggio D fuel prog 0%Qc g = Raise ZeroDivisionError /\
     make_bass D fuel prog 0%Qc = Raise ZeroDivisionError /\
     make_pads D fuel prog 0%Qc = Raise ZeroDivisionError /\
     make_drums D 0%Qc g = Raise ZeroDivisionError) /\
  (forall bpm, bpm <> 0%Qc -> (0 < D)%Qc ->
     make_melody D (S fuel) [] bpm motif g = Raise ZeroDivisionError /\
     make_arpeggio D (S fuel) [] bpm g = Raise ZeroDivisionError /\
     make_bass D (S fuel) [] bpm = Raise ZeroDivisionError /\
     make_pads D (S fuel) [] bpm = Raise ZeroDivisionError).
Proof.
  split.
  - intros prog. unfold make_melody, make_arpeggio, make_bass, make_pads, make_drums.
    exact_num. by rewrite !py_div_Qc_zero.
  - intros bpm Hbpm HD.
    assert (E : Qc_ltb 0 D = true) by (by apply Qc_ltb_lt).
    assert (Hcl : (Q2Qc 4 * (Q2Qc 60 / bpm))%Qc <> 0%Qc).
    { intros H. apply (beat_nonzero bpm Hbpm). unfold beat_of.
      apply Qcmult_integral in H as [H | H]; [discriminate | done]. }
    unfold make_melody, make_arpeggio, make_bass, make_pads.
    rewrite !(py_div_Qc _ _ Hbpm). run_bind.
    cbn [melody_loop arpeggio_loop bass_loop pads_loop]. exact_num. rewrite E.
    change (Q2Qc 0) with 0%Qc. rewrite !(py_div_Qc _ _ Hcl). run_bind.
    unfold py_int. exact_num. run_bind. rewrite !cyclic_nil.
    repeat split; try done.
    destruct (random_choice_cases ["asc"; "desc"; "rand"] g)
      as [[? _] | (style & g' & -> & _)]; [done |].
    by run_bind.
Qed.

Lemma zero_tempo_and_empty_progression_witness :
  make_drums (G:=N) (Q2Qc 15) 0%Qc 7%N = Raise ZeroDivisionError /\
  make_bass (Q2Qc 15) 1 [] (Q2Qc 120) = Raise ZeroDivisionError.
Proof.
  destruct (zero_tempo_and_empty_progression (RG:=lcg_random) (Q2Qc 15) ["C4"] 0 7%N)
    as [Hzero Hempty].
  split.
  - apply (Hzero ["C3"]).
  - apply (Hempty (Q2Qc 120)); [discriminate | reflexivity].
Defined.

Lemma make_drums_eq {G : Type} {RG : @PyRandom Qc G Qc_number} (D bpm : Qc) (g : G) :
  bpm <> 0%Qc ->
  make_drums D bpm g
    = drums_loop D (py_range (Qc_trunc (D / beat_of bpm)%Qc)) (beat_of bpm) [] g.
Proof.
  intros Hbpm. unfold make_drums.
  rewrite (py_div_Qc _ _ Hbpm). run_bind. fold (beat_of bpm).
  rewrite (py_div_Qc _ _ (beat_nonzero bpm Hbpm)). run_bind.
  unfold py_int. exact_num. by run_bind.
Qed.

Lemma idle_generators {G : Type} {RG : @PyRandom Qc G Qc_number}
    (D bpm : Qc) (prog motif : list string) (fuel : nat) (g : G) :
  (D <= 0)%Qc -> (0 < bpm)%Qc ->
  make_melody D fuel prog bpm motif g = Done ([], g) /\
  (exists g', make_arpeggio D fuel prog bpm g = Done ([], g')) /\
  make_bass D fuel prog bpm = Done [] /\
  make_pads D fuel prog bpm = Done [] /\
  make_drums D bpm g = Done ([], g).
Proof.
  intros HD Hbpm.
  assert (E : Qc_ltb 0 D = false) by (by apply Qc_ltb_ge).
  pose proof (beat_pos bpm Hbpm) as Hbeat. fold (beat_of bpm) in Hbeat.
  rewrite (make_melody_eq D bpm prog motif fuel Hbpm), (make_bass_eq D bpm prog fuel Hbpm),
    (make_pads_eq D bpm prog fuel Hbpm), (make_arpeggio_eq D bpm prog fuel Hbpm).
  rewrite melody_loop_exit, bass_loop_exit, pads_loop_exit by done.
  repeat split.
  - destruct (random_choice_cases ["asc"; "desc"; "rand"] g)
      as [[? _] | (style & g' & -> & _)]; [done |].
    run_bind. exists g'. by rewrite arpeggio_loop_exit.
  - rewrite make_drums_eq by (intros ->; by apply (irreflexivity Qclt) in Hbpm).
    assert (Hq : (D / beat_of bpm <= 0)%Qc).
    { unfold Qcdiv. assert (0 < / beat_of bpm)%Qc by (by apply Qcinv_pos).
      assert (0 <= - D * / beat_of bpm)%Qc by (apply Qcmult_nonneg_nonneg; qc_lra).
      replace (- D * / beat_of bpm)%Qc with (- (D * / beat_of bpm))%Qc in * by ring. qc_lra. }
    apply Qc_trunc_nonpos in Hq. unfold py_range.
    by replace (Z.to_nat (Qc_trunc (D / beat_of bpm))) with 0%nat by lia.
Qed.

(** X8: in exact arithmetic, with a total duration of zero or less and a
    positive tempo, every generator returns the empty list, whatever the
    progression (even empty or unknown) and the fuel (even none): no loop is
    entered, and [range] of a count that is not positive is empty.  Only the
    arpeggio has drawn from the random source, for its style. *)
Theorem no_duration_no_events {G : Type} {RG : @PyRandom Qc G Qc_number}
    (D bpm : Qc) (prog motif : list string) (fuel : nat) (g : G) :
  (D <= 0)%Qc -> (0 < bpm)%Qc ->
  make_melody D fuel prog bpm motif g = Done ([], g) /\
  (exists g', make_arpeggio D fuel prog bpm g = Done ([], g')) /\
  make_bass D fuel prog bpm = Done [] /\
  make_pads D fuel prog bpm = Done [] /\
  make_drums D bpm g = Done ([], g).
Proof. apply idle_generators. Qed.

Lemma no_duration_no_events_witness :
  make_melody (G:=N) 0%Qc 0 [] (Q2Qc 120) [] 7%N = Done ([], 7%N) /\
  (exists g', make_arpeggio (G:=N) 0%Qc 0 [] (Q2Qc 120) 7%N = Done ([], g')) /\
  make_bass 0%Qc 0 [] (Q2Qc 120) = Done [] /\
  make_pads 0%Qc 0 [] (Q2Qc 120) = Done [] /\
  make_drums (G:=N) 0%Qc (Q2Qc 120) 7%N = Done ([], 7%N).
Proof.
  apply (no_duration_no_events (RG:=lcg_random)).
  - discriminate.
  - reflexivity.
Defined.

Lemma cyclic_head (r : string) (rest : list string) : cyclic (r :: rest) 0 = Done r.
Proof. unfold cyclic, py_mod. cbn [length]. run_bind. by rewrite Z.mod_0_l by lia. Qed.

(** X9: in exact arithmetic, when the first root of the progression is not
    a chord of the table, the pads and the arpeggio stop with [KeyError] in
    their first iteration, and so does the melody when its first draw is
    below 0.7; the bassline never looks the root up and returns its events,
    the first of which carries that root. *)
Theorem unknown_chord_root {G : Type} {RG : @PyRandom Qc G Qc_number}
    (D bpm : Qc) (r : string) (rest motif : list string) (fuel : nat) (g : G) :
  chord_notes !! r = None -> (0 < bpm)%Qc -> (0 < D)%Qc -> enough_fuel D bpm (S fuel) ->
  make_pads D (S fuel) (r :: rest) bpm = Raise KeyError /\
  make_arpeggio D (S fuel) (r :: rest) bpm g = Raise KeyError /\
  ((fst (random_random g) < Q2Qc 0.7)%Qc ->
     make_melody D (S fuel) (r :: rest) bpm motif g = Raise KeyError) /\
  exists out,
    make_bass D (S fuel) (r :: rest) bpm
      = Done ((r, py_min (Q2Qc 4 * beat_of bpm)%Qc D, 0%Qc) :: out).
Proof.
  intros Hr Hbpm HD Hfuel.
  assert (E : Qc_ltb 0 D = true) by (by apply Qc_ltb_lt).
  pose proof (beat_pos bpm Hbpm) as Hbeat. fold (beat_of bpm) in Hbeat.
  pose proof (chord_len_nonzero (beat_of bpm) Hbeat) as Hcl.
  assert (Hz : Qc_trunc (0 / (Q2Qc 4 * beat_of bpm))%Qc = 0%Z).
  { replace (0 / (Q2Qc 4 * beat_of bpm))%Qc with 0%Qc by (unfold Qcdiv; ring). reflexivity. }
  split; [| split; [| split]].
  - rewrite (make_pads_eq D bpm _ _ Hbpm), pads_loop_unfold by done.
    rewrite cyclic_head. run_bind. by rewrite Hr.
  - rewrite (make_arpeggio_eq D bpm _ _ Hbpm).
    destruct (random_choice_cases ["asc"; "desc"; "rand"] g)
      as [[? _] | (style & g' & -> & _)]; [done |].
    run_bind. rewrite arpeggio_loop_unfold by done.
    rewrite Hz, cyclic_head. run_bind. by rewrite Hr.
  - intros Hdraw. rewrite (make_melody_eq D bpm _ _ _ Hbpm).
    cbn [melody_loop]. exact_num. rewrite E.
    rewrite (py_div_Qc _ _ Hcl). run_bind. unfold py_int. exact_num. run_bind.
    rewrite Hz, cyclic_head. run_bind.
    destruct (random_random g) as [r1 g1]. cbn [fst] in Hdraw.
    apply Qc_ltb_lt in Hdraw. rewrite Hdraw. by rewrite Hr.
  - pose proof (make_bass_terminates D bpm (r :: rest) (S fuel) Hbpm Hfuel) as Hterm.
    rewrite (make_bass_eq D bpm _ _ Hbpm) in *.
    rewrite bass_loop_unfold in * by done. rewrite cyclic_head in *. revert Hterm. run_bind.
    cbn zeta. replace (D - 0)%Qc with D by ring. cbn [app]. intros Hterm.
    destruct (bass_loop D fuel (r :: rest) (beat_of bpm) _ _ _) as [res | e |] eqn:Hres;
      [| by apply bass_loop_no_raise in Hres | done].
    destruct (bass_loop_events D (r :: rest) (beat_of bpm) Hbeat fuel _ 1%nat _ res Hres)
      as (evs & -> & _).
    by exists evs.
Qed.

Lemma unknown_chord_root_witness :
  make_pads (Q2Qc 15) 80 ["B3"; "C3"] (Q2Qc 120) = Raise KeyError /\
  make_arpeggio (G:=N) (Q2Qc 15) 80 ["B3"; "C3"] (Q2Qc 120) 7%N = Raise KeyError /\
  ((fst (random_random (G:=N) 7%N) < Q2Qc 0.7)%Qc ->
     make_melody (G:=N) (Q2Qc 15) 80 ["B3"; "C3"] (Q2Qc 120) ["C4"] 7%N = Raise KeyError) /\
  exists out,
    make_bass (Q2Qc 15) 80 ["B3"; "C3"] (Q2Qc 120)
      = Done (("B3", py_min (Q2Qc 4 * beat_of (Q2Qc 120))%Qc (Q2Qc 15), 0%Qc) :: out).
Proof.
  apply (unknown_chord_root (RG:=lcg_random) (Q2Qc 15) (Q2Qc 120) "B3" ["C3"] ["C4"] 79 7%N).
  - reflexivity.
  - reflexivity.
  - reflexivity.
  - unfold enough_fuel. vm_compute. lia.
Defined.

(** ** The synthesisers *)

Lemma mapM_total {A B : Type} (f : A -> outcome B) (f' : A -> B) (l : list A) :
  (forall x, x ∈ l -> f x = Done (f' x)) -> mapM f l = Done (map f' l).
Proof.
  induction l as [| x l IH]; intros H; [done |].
  cbn [mapM map]. rewrite (H x) by (by left). run_bind.
  rewrite IH by (intros y Hy; apply H; by right). by run_bind.
Qed.

Lemma samples_nonneg (dur : Qc) : (0 <= dur)%Qc -> (0 <= SR * dur)%Qc.
Proof. intros H. apply Qcmult_nonneg_nonneg; [by vm_compute | done]. Qed.

Section Synth.
Context {G : Type} {RG : @PyRandom Qc G Qc_number} {TR : Transcendental Qc}.

Lemma sine_wave_length (freq dur decay : Qc) :
  (0 <= dur)%Qc ->
  exists wave, sine_wave freq dur decay = Done wave /\
    length wave = Z.to_nat (Qc_trunc (SR * dur)%Qc).
Proof.
  intros Hdur. unfold sine_wave, py_int. exact_num. run_bind.
  destruct (Qc_trunc_bounds _ (samples_nonneg dur Hdur)) as (Hn & _).
  destruct (np_linspace_length dur _ Hn) as (t & Ht & Hlen).
  change (Q2Qc 0) with 0%Qc. rewrite Ht. run_bind.
  destruct (Qc_ltb 0 decay); [| eexists; split; [done | by rewrite length_map]].
  destruct (Qcanon.Qc_eq_dec dur 0) as [-> | Hnz].
  - assert (t = []) as -> by (destruct t; [done | discriminate Hlen]).
    exists []. split; [done | by rewrite <- Hlen].
  - rewrite (mapM_total _ (fun x => np_exp (- x / dur * decay)%Qc)).
    + run_bind. eexists. split; [done |].
      rewrite length_zip_with, !length_map. lia.
    + intros x _. unfold np_div. exact_num. by rewrite Qc_eq_bool_false.
Qed.

Lemma sine_wave_negative (freq dur decay : Qc) :
  (SR * dur <= Q2Qc (-1))%Qc -> sine_wave freq dur decay = Raise ValueError.
Proof.
  intros Hdur. unfold sine_wave, py_int. exact_num. run_bind.
  apply Qc_trunc_le_minus_one in Hdur. unfold np_linspace.
  destruct (Z.ltb_spec (Qc_trunc (SR * dur)) 0); [done | lia].
Qed.

Lemma drum_sound_length (kind : string) (dur : Qc) (g : G) :
  (0 <= dur)%Qc ->
  exists wave g', drum_sound kind dur g = Done (wave, g') /\
    length wave = Z.to_nat (Qc_trunc (SR * dur)%Qc) /\
    (kind = "kick" \/ kind ∉ known_kinds -> g' = g).
Proof.
  intros Hdur. unfold drum_sound, py_int. exact_num. run_bind.
  destruct (Qc_trunc_bounds _ (samples_nonneg dur Hdur)) as (Hn & _).
  destruct (np_linspace_length dur _ Hn) as (t & Ht & Hlen).
  change (Q2Qc 0) with 0%Qc. rewrite Ht. run_bind.
  pose proof (np_random_rand_length (length t) g) as Hr.
  destruct (np_random_rand (length t) g) as [noise g1]. cbn [fst] in Hr.
  unfold known_kinds.
  destruct (bool_decide (kind = "kick")) eqn:E1.
  { eexists _, _. split; [done |]. by rewrite length_map. }
  apply bool_decide_eq_false in E1.
  assert (Hnoise : forall k, kind = k -> k ∈ ["kick"; "snare"; "hihat"; "clap"] ->
            kind = "kick" \/ kind ∉ ["kick"; "snare"; "hihat"; "clap"] -> g1 = g).
  { intros k <- Hin [? | Hk]; done. }
  destruct (bool_decide (kind = "snare")) eqn:E2.
  { apply bool_decide_eq_true in E2. eexists _, _. split; [done |].
    rewrite length_zip_with. split; [lia |]. apply (Hnoise _ E2). set_solver. }
  destruct (bool_decide (kind = "hihat")) eqn:E3.
  { apply bool_decide_eq_true in E3. eexists _, _. split; [done |].
    rewrite length_zip_with. split; [lia |]. apply (Hnoise _ E3). set_solver. }
  destruct (bool_decide (kind = "clap")) eqn:E4.
  { apply bool_decide_eq_true in E4. eexists _, _. split; [done |].
    rewrite length_zip_with. split; [lia |]. apply (Hnoise _ E4). set_solver. }
  eexists _, _. split; [done |]. unfold np_zeros. by rewrite length_replicate.
Qed.

Lemma drum_sound_negative (kind : string) (dur : Qc) (g : G) :
  (SR * dur <= Q2Qc (-1))%Qc -> drum_sound kind dur g = Raise ValueError.
Proof.
  intros Hdur. unfold drum_sound, py_int. exact_num. run_bind.
  apply Qc_trunc_le_minus_one in Hdur. unfold np_linspace.
  destruct (Z.ltb_spec (Qc_trunc (SR * dur)) 0); [done | lia].
Qed.

End Synth.

(** ** Events that the mixer accepts *)

Section MixerAccepts.
Context {G : Type} {RG : @PyRandom Qc G Qc_number} {TR : Transcendental Qc}.

Lemma add_event_ok (buf : list Qc) (name : string) (dur start vol : Qc)
    (gen_fn : string -> Qc -> G -> outcome (list Qc * G)) (g g' : G) (wave : list Qc) :
  (0 <= start)%Qc -> gen_fn name dur g = Done (wave, g') ->
  exists buf', add_event (Z.of_nat (length buf)) buf (name, dur, start) gen_fn vol g
                 = Done (buf', g') /\ length buf' = length buf.
Proof.
  intros Hstart Hgen.
  assert (Hpos : (0 <= start * SR)%Qc).
  { apply Qcmult_nonneg_nonneg; [done | by vm_compute]. }
  destruct (Qc_trunc_bounds _ Hpos) as (Hi0 & _).
  destruct (Z.lt_ge_cases (Qc_trunc (start * SR)%Qc) (Z.of_nat (length buf))) as [Hin | Hout].
  - eexists. split.
    + apply (add_event_inside buf name dur start vol gen_fn g g'
               (Qc_trunc (start * SR)%Qc) wave); [done | done | lia].
    + apply length_imap.
  - exists buf. split; [| done].
    by apply (add_event_dropped _ buf name dur start vol gen_fn g g'
                (Qc_trunc (start * SR)%Qc) wave).
Qed.

Lemma tone_ok (decay : Qc) (name : string) (dur : Qc) (g : G) :
  is_Some (note_freqs !! name) -> (0 <= dur)%Qc ->
  exists wave, tone decay name dur g = Done (wave, g).
Proof.
  intros [freq Hf] Hdur. unfold tone. rewrite Hf. run_bind.
  destruct (sine_wave_length (Q2Qc freq) dur decay Hdur) as (wave & Hw & _).
  exact_num. rewrite Hw. by exists wave.
Qed.

Lemma tone_events_loop (decay vol : Qc) (events : list (@event Qc)) :
  forall (buf : list Qc) (g : G),
  Forall playable events ->
  exists buf', add_events_loop (Z.of_nat (length buf)) buf events (tone decay) vol g
                 = Done (buf', g) /\ length buf' = length buf.
Proof.
  induction events as [| [[name dur] start] events IH]; intros buf g Hall.
  - by exists buf.
  - apply Forall_cons in Hall as [(Hname & Hdur & Hstart) Hall].
    unfold ev_dur, ev_start in Hdur, Hstart. cbn [fst snd] in *.
    destruct (tone_ok decay name dur g Hname Hdur) as (wave & Hw).
    destruct (add_event_ok buf name dur start vol (tone decay) g g wave Hstart Hw)
      as (buf1 & Hev & Hlen).
    cbn [add_events_loop]. rewrite Hev. run_bind. rewrite <- Hlen.
    destruct (IH buf1 g Hall) as (buf' & -> & Hlen'). exists buf'. split; [done | lia].
Qed.

Lemma tone_events_unknown (decay vol : Qc) (events : list (@event Qc)) :
  forall (buf : list Qc) (g : G),
  Forall placeable events -> ~ Forall playable events ->
  add_events_loop (Z.of_nat (length buf)) buf events (tone decay) vol g = Raise KeyError.
Proof.
  induction events as [| [[name dur] start] events IH]; intros buf g Hall Hbad.
  - exfalso. apply Hbad. constructor.
  - apply Forall_cons in Hall as [[Hdur Hstart] Hall].
    unfold ev_dur, ev_start in Hdur, Hstart. cbn [fst snd] in *.
    cbn [add_events_loop].
    destruct (note_freqs !! name) as [freq |] eqn:Hf.
    + destruct (tone_ok decay name dur g (mk_is_Some _ _ Hf) Hdur) as (wave & Hw).
      destruct (add_event_ok buf name dur start vol (tone decay) g g wave Hstart Hw)
        as (buf1 & Hev & Hlen).
      rewrite Hev. run_bind. rewrite <- Hlen. apply IH; [done |].
      intros Hrest. apply Hbad. constructor; [| done].
      unfold playable, ev_dur, ev_start. cbn [fst snd]. by rewrite Hf.
    + unfold add_event, py_int. exact_num. run_bind. unfold tone. by rewrite Hf.
Qed.

Lemma drum_events_loop (vol : Qc) (events : list (@event Qc)) :
  forall (buf : list Qc) (g : G),
  Forall placeable events ->
  exists buf' g', add_events_loop (Z.of_nat (length buf)) buf events drum vol g
                    = Done (buf', g') /\ length buf' = length buf.
Proof.
  induction events as [| [[name dur] start] events IH]; intros buf g Hall.
  - by exists buf, g.
  - apply Forall_cons in Hall as [[Hdur Hstart] Hall].
    unfold ev_dur, ev_start in Hdur, Hstart. cbn [fst snd] in *.
    destruct (drum_sound_length name dur g Hdur) as (wave & g1 & Hw & _).
    destruct (add_event_ok buf name dur start vol drum g g1 wave Hstart Hw)
      as (buf1 & Hev & Hlen).
    cbn [add_events_loop]. rewrite Hev. run_bind. rewrite <- Hlen.
    destruct (IH buf1 g1 Hall) as (buf' & g' & -> & Hlen'). exists buf', g'.
    split; [done | lia].
Qed.

End MixerAccepts.

(** X10: in exact arithmetic, for a duration that is not negative both
    synthesisers return exactly [int (SR * dur)] samples, whatever the
    frequency, the decay and the kind; the kick and an unknown kind leave the
    random source as it was. *)
Theorem waveforms_have_int_sr_dur_samples {G : Type} {RG : @PyRandom Qc G Qc_number}
    {TR : Transcendental Qc} (freq decay dur : Qc) (kind : string) (g : G) :
  (0 <= dur)%Qc ->
  let n := Z.to_nat (Qc_trunc (SR * dur)%Qc) in
  (exists wave, sine_wave freq dur decay = Done wave /\ length wave = n) /\
  (exists wave g', drum_sound kind dur g = Done (wave, g') /\ length wave = n /\
     (kind = "kick" \/ kind ∉ known_kinds -> g' = g)).
Proof.
  intros Hdur n. split.
  - by apply sine_wave_length.
  - by apply drum_sound_length.
Qed.

Lemma waveforms_have_int_sr_dur_samples_witness :
  let n := Z.to_nat (Qc_trunc (SR * Q2Qc 0.001)%Qc) in
  (exists wave, sine_wave (TR:=series_transcendental) (Q2Qc 440) (Q2Qc 0.001) (Q2Qc 3)
                  = Done wave /\ length wave = n) /\
  (exists wave g', drum_sound (RG:=lcg_random) (TR:=series_transcendental) "snare" (Q2Qc 0.001) 7%N
                     = Done (wave, g') /\ length wave = n /\
     ("snare" = "kick" \/ "snare" ∉ known_kinds -> g' = 7%N)).
Proof.
  apply (waveforms_have_int_sr_dur_samples (RG:=lcg_random) (TR:=series_transcendental)).
  discriminate.
Defined.

(** X11: in exact arithmetic, a duration of [-1 / SR] or less stops both
    synthesisers with [ValueError]: [np.linspace] is asked for a negative
    number of samples. *)
Theorem negative_duration_is_rejected {G : Type} {RG : @PyRandom Qc G Qc_number}
    {TR : Transcendental Qc} (freq decay dur : Qc) (kind : string) (g : G) :
  (SR * dur <= Q2Qc (-1))%Qc ->
  sine_wave freq dur decay = Raise ValueError /\
  drum_sound kind dur g = Raise ValueError.
Proof.
  intros Hdur. split; [by apply sine_wave_negative | by apply drum_sound_negative].
Qed.

Lemma negative_duration_is_rejected_witness :
  sine_wave (TR:=series_transcendental) (Q2Qc 440) (Q2Qc (-0.5)) (Q2Qc 3) = Raise ValueError /\
  drum_sound (RG:=lcg_random) (TR:=series_transcendental) "kick" (Q2Qc (-0.5)) 7%N
    = Raise ValueError.
Proof.
  apply (negative_duration_is_rejected (RG:=lcg_random) (TR:=series_transcendental)).
  by vm_compute.
Defined.

(** *** In any arithmetic *)

Section AnyArithmetic.
Context {T G : Type} `{RG : PyRandom T G} {TR : Transcendental T}.

Lemma np_linspace_length_any (start stop : T) (n : Z) (t : list T) :
  np_linspace start stop n = Done t -> length t = Z.to_nat n.
Proof.
  unfold np_linspace. destruct (Z.ltb_spec n 0); [done |].
  destruct (Z.eqb_spec n 0) as [-> | Hnz]; [by intros [= <-] |].
  destruct (np_div _ _) as [step | |]; run_bind; try done.
  intros [= <-]. by rewrite length_map, length_seq.
Qed.

Lemma mapM_outcome_length {A B : Type} (f : A -> outcome B) (l : list A) (k : list B) :
  mapM f l = Done k -> length k = length l.
Proof.
  revert k. induction l as [| x l IH]; intros k; cbn [mapM].
  - by intros [= <-].
  - destruct (f x) as [y | |]; run_bind; try done.
    destruct (mapM f l) as [k' | |]; run_bind; try done.
    intros [= <-]. cbn [length]. f_equal. by apply IH.
Qed.

(** X12: for any number type, binary64 included, a waveform that a
    synthesiser returns has [int (SR * dur)] samples, the truncation being
    the one of that arithmetic: the envelope and the noise never change the
    length. *)
Theorem waveform_length_in_any_arithmetic (freq decay dur : T) (kind : string) (g : G) :
  (forall wave, sine_wave freq dur decay = Done wave ->
     exists n, num_trunc (SR * dur)%num = Some n /\ length wave = Z.to_nat n) /\
  (forall wave g', drum_sound kind dur g = Done (wave, g') ->
     exists n, num_trunc (SR * dur)%num = Some n /\ length wave = Z.to_nat n).
Proof.
  split.
  - intros wave. unfold sine_wave, py_int.
    destruct (num_trunc (SR * dur)%num) as [n |]; run_bind; [| done].
    destruct (np_linspace (lit 0) dur n) as [t | |] eqn:Ht; run_bind; try done.
    apply np_linspace_length_any in Ht.
    destruct (lit 0 <? decay)%num.
    + destruct (mapM _ t) as [envelope | |] eqn:He; run_bind; try done.
      apply mapM_outcome_length in He.
      intros [= <-]. exists n. split; [done |]. rewrite length_zip_with, length_map. lia.
    + intros [= <-]. exists n. split; [done |]. by rewrite length_map.
  - intros wave g'. unfold drum_sound, py_int.
    destruct (num_trunc (SR * dur)%num) as [n |]; run_bind; [| done].
    destruct (np_linspace (lit 0) dur n) as [t | |] eqn:Ht; run_bind; try done.
    apply np_linspace_length_any in Ht.
    pose proof (np_random_rand_length (length t) g) as Hr.
    destruct (np_random_rand (length t) g) as [noise g1]. cbn [fst] in Hr.
    repeat case_bool_decide; intros [= <- <-]; exists n; (split; [done |]);
      rewrite ?length_map, ?length_zip_with; unfold np_zeros;
      rewrite ?length_replicate; lia.
Qed.

End AnyArithmetic.

Lemma waveform_length_in_any_arithmetic_witness :
  let wave :=
    match sine_wave (T:=float) (TR:=series_transcendental) 440%float 0.001%float 3%float with
    | Done w => w
    | _ => []
    end in
  exists n, float_trunc (PrimFloat.mul 44100%float 0.001%float) = Some n /\
    length wave = Z.to_nat n.
Proof.
  intros wave.
  destruct (waveform_length_in_any_arithmetic (T:=float) (RG:=lcg_random)
              (TR:=series_transcendental) 440%float 3%float 0.001%float "kick" 0%N)
    as [H _].
  apply (H wave). vm_compute. reflexivity.
Defined.

(** *** The waveform of a note *)

Lemma np_linspace_lookup (stop : Qc) (n : Z) (t : list Qc) (k : nat) :
  np_linspace 0%Qc stop n = Done t -> (Z.of_nat k < n)%Z ->
  t !! k = Some (of_int (Z.of_nat k) * (stop / of_int n))%Qc.
Proof.
  intros Ht Hk. unfold np_linspace in Ht.
  destruct (Z.ltb_spec n 0); [lia |].
  destruct (Z.eqb_spec n 0) as [-> | Hnz]; [lia |].
  unfold np_div in Ht. exact_num.
  rewrite (Qc_eq_bool_false _ _ (of_int_nonzero n Hnz)) in Ht. revert Ht. run_bind.
  intros [= <-].
  assert (Hs : seq 0 (Z.to_nat n) !! k = Some k).
  { rewrite lookup_seq. split; [done | lia]. }
  change (map ?f ?l) with (f <$> l). rewrite list_lookup_fmap, Hs. cbn. f_equal.
  unfold Qcminus, Qcdiv. ring.
Qed.

Section Envelope.
Context {TR : Transcendental Qc}.

(** X13: in exact arithmetic, for a positive duration the sample [k] of
    [sine_wave (freq, dur, decay)] is [sin (2 * pi * freq * t)] at the time
    [t = k * dur / n], where [n = int (SR * dur)], multiplied, when the decay
    is positive, by [exp (- (k / n) * decay)]: the envelope depends on the
    position [k / n] inside the note and not on its duration, so that every
    note fades by the same ratio from its first sample to its last. *)
Theorem tone_decays_relative_to_its_length (freq dur decay : Qc) :
  (0 < dur)%Qc ->
  let n := Qc_trunc (SR * dur)%Qc in
  exists wave, sine_wave freq dur decay = Done wave /\
    forall k : nat, (Z.of_nat k < n)%Z ->
      let t := (of_int (Z.of_nat k) * (dur / of_int n))%Qc in
      let s := np_sin (Q2Qc 2 * np_pi * freq * t)%Qc in
      wave !! k = Some (if Qc_ltb 0 decay
                        then (s * np_exp (- (of_int (Z.of_nat k) / of_int n) * decay))%Qc
                        else s).
Proof.
  intros Hdur n.
  assert (Hd0 : (0 <= dur)%Qc) by (by apply Qclt_le_weak).
  assert (Hdnz : dur <> 0%Qc) by (intros ->; by apply (irreflexivity Qclt) in Hdur).
  destruct (Qc_trunc_bounds _ (samples_nonneg dur Hd0)) as (Hn & _). fold n in Hn.
  destruct (np_linspace_length dur n Hn) as (t & Ht & Hlen).
  unfold sine_wave, py_int. exact_num. run_bind. fold n.
  change (Q2Qc 0) with 0%Qc. rewrite Ht. run_bind.
  destruct (Qc_ltb 0 decay) eqn:Hdecay.
  - rewrite (mapM_total _ (fun x => np_exp (- x / dur * decay)%Qc)).
    2: { intros x _. unfold np_div. exact_num. by rewrite Qc_eq_bool_false. }
    run_bind. eexists. split; [done |].
    intros k Hk. cbn zeta.
    pose proof (np_linspace_lookup dur n t k Ht Hk) as Htk.
    rewrite lookup_zip_with.
    change (map ?f ?l) with (f <$> l). rewrite !list_lookup_fmap, Htk. cbn. do 3 f_equal.
    assert (Hnnz : of_int (T:=Qc) n <> 0%Qc) by (apply of_int_nonzero; lia).
    field. done.
  - eexists. split; [done |]. intros k Hk. cbn zeta.
    pose proof (np_linspace_lookup dur n t k Ht Hk) as Htk.
    change (map ?f ?l) with (f <$> l). by rewrite list_lookup_fmap, Htk.
Qed.

End Envelope.

Lemma tone_decays_relative_to_its_length_witness :
  let n := Qc_trunc (SR * Q2Qc 0.001)%Qc in
  exists wave,
    sine_wave (TR:=series_transcendental) (Q2Qc 440) (Q2Qc 0.001) (Q2Qc 3) = Done wave /\
    forall k : nat, (Z.of_nat k < n)%Z ->
      let t := (of_int (Z.of_nat k) * (Q2Qc 0.001 / of_int n))%Qc in
      let s := np_sin (Transcendental:=series_transcendental)
                 (Q2Qc 2 * np_pi * Q2Qc 440 * t)%Qc in
      wave !! k = Some (if Qc_ltb 0 (Q2Qc 3)
                        then (s * np_exp (- (of_int (Z.of_nat k) / of_int n) * Q2Qc 3))%Qc
                        else s).
Proof.
  apply (tone_decays_relative_to_its_length (TR:=series_transcendental)). reflexivity.
Defined.

(** X14: in exact arithmetic, for events whose durations and starts are
    not negative, the mixer with a tonal synthesiser returns, with a buffer
    of the same length and the random source untouched, when every note is
    in the pitch table, and stops with [KeyError] otherwise; with the
    percussion synthesiser it always returns. *)
Theorem mixer_accepts_known_notes {G : Type} {RG : @PyRandom Qc G Qc_number}
    {TR : Transcendental Qc} (decay vol : Qc) (buf : list Qc) (events : list (@event Qc))
    (g : G) :
  Forall (fun ev => (0 <= ev_dur ev)%Qc /\ (0 <= ev_start ev)%Qc) events ->
  (Forall (fun ev => is_Some (note_freqs !! ev.1.1)) events ->
     exists buf', add_events buf events (tone decay) vol g = Done (buf', g) /\
       length buf' = length buf) /\
  (~ Forall (fun ev => is_Some (note_freqs !! ev.1.1)) events ->
     add_events buf events (tone decay) vol g = Raise KeyError) /\
  (exists buf' g', add_events buf events drum vol g = Done (buf', g') /\
     length buf' = length buf).
Proof.
  intros Hall. split; [| split].
  - intros Hknown. apply tone_events_loop.
    rewrite Forall_forall in Hall, Hknown. apply Forall_forall. intros ev Hev.
    split; [by apply Hknown | by apply Hall].
  - intros Hbad. apply tone_events_unknown; [done |].
    intros Hp. apply Hbad. eapply Forall_impl; [exact Hp |]. by intros ev [? _].
  - by apply drum_events_loop.
Qed.

Lemma mixer_accepts_known_notes_witness :
  let buf := replicate 100 0%Qc in
  (exists buf', add_events (G:=N) buf
                  [("C4", Q2Qc 0.001, 0%Qc); ("E4", Q2Qc 0.001, Q2Qc 0.001)]
                  (tone (TR:=series_transcendental) (Q2Qc 3)) (Q2Qc 0.9) 7%N = Done (buf', 7%N) /\
     length buf' = length buf) /\
  add_events (G:=N) buf
    [("C4", Q2Qc 0.001, 0%Qc); ("H4", Q2Qc 0.001, Q2Qc 0.001)]
    (tone (TR:=series_transcendental) (Q2Qc 3)) (Q2Qc 0.9) 7%N = Raise KeyError.
Proof.
  intros buf. split.
  - destruct (mixer_accepts_known_notes (RG:=lcg_random) (TR:=series_transcendental)
                (Q2Qc 3) (Q2Qc 0.9) buf
                [("C4", Q2Qc 0.001, 0%Qc); ("E4", Q2Qc 0.001, Q2Qc 0.001)] 7%N) as (H & _).
    + repeat constructor; discriminate.
    + apply H. repeat constructor; by eexists.
  - destruct (mixer_accepts_known_notes (RG:=lcg_random) (TR:=series_transcendental)
                (Q2Qc 3) (Q2Qc 0.9) buf
                [("C4", Q2Qc 0.001, 0%Qc); ("H4", Q2Qc 0.001, Q2Qc 0.001)] 7%N) as (_ & H & _).
    + repeat constructor; discriminate.
    + apply H. intros Hk. apply Forall_cons in Hk as [_ Hk]. apply Forall_cons in Hk as [[? Hk] _].
      discriminate Hk.
Defined.

(** ** An event that starts before the buffer *)

(** X15: for any number type, an event whose start index [i0] is negative is
    not clipped at the front.  The slice [buf[i0:i1]] counts a negative
    bound from the end of the buffer: an event that ends before index 0
    ([i0 + len < 0], with [-N <= i0]) is added at the offset [N + i0], that
    is at the end of the piece; an event of two samples or more that ends
    exactly at index 0 meets an empty slice, and an event that reaches past
    index 0 meets a slice that is too short: both stop with [ValueError]. *)
Theorem mixer_negative_start {T G : Type} `{NT : Number T}
    (gen_fn : string -> T -> G -> outcome (list T * G)) (vol : T) (buf : list T) (g g' : G)
    (name : string) (dur start : T) (i0 : Z) (wave : list T) :
  num_trunc (start * SR)%num = Some i0 -> gen_fn name dur g = Done (wave, g') ->
  (i0 < 0)%Z ->
  let N := Z.of_nat (length buf) in
  let L := Z.of_nat (length wave) in
  let data := map (fun x => (x * vol)%num) wave in
  ((- N <= i0)%Z -> (i0 + L < 0)%Z ->
     add_event N buf (name, dur, start) gen_fn vol g
       = Done (imap (add_at (Z.to_nat (N + i0)) data) buf, g')) /\
  ((i0 + L = 0)%Z -> (2 <= L)%Z ->
     add_event N buf (name, dur, start) gen_fn vol g = Raise ValueError) /\
  ((0 < i0 + L)%Z -> (0 < N)%Z ->
     add_event N buf (name, dur, start) gen_fn vol g = Raise ValueError).
Proof.
  intros Hi0 Hgen Hneg N L data.
  assert (Hev : add_event N buf (name, dur, start) gen_fn vol g
    = (buf' ← iadd_slice buf i0 (Z.min (i0 + L) N) (slice_to data (Z.min (i0 + L) N - i0));
       Done (buf', g'))).
  { unfold add_event, py_int. rewrite Hi0. run_bind. rewrite Hgen. run_bind.
    fold data. replace (Z.of_nat (length data)) with L by (subst data L; by rewrite length_map).
    destruct (Z.ltb_spec i0 N); [done | lia]. }
  rewrite Hev. clear Hev.
  assert (HL : Z.of_nat (length data) = L) by (subst data L; by rewrite length_map).
  split; [| split].
  - intros HN Hend. replace (Z.min (i0 + L) N) with (i0 + L)%Z by lia.
    assert (Hs : slice_to data (i0 + L - i0) = data).
    { unfold slice_to, slice_bound. rewrite HL.
      destruct (Z.ltb_spec (i0 + L - i0) 0); [lia |].
      apply take_ge. lia. }
    rewrite Hs. unfold iadd_slice, slice_bound. fold N.
    destruct (Z.ltb_spec i0 0); [| lia]. destruct (Z.ltb_spec (i0 + L) 0); [| lia].
    rewrite decide_True by lia. run_bind.
    by replace (Z.max (i0 + N) 0) with (N + i0)%Z by lia.
  - intros Hend HL2. replace (Z.min (i0 + L) N) with 0%Z by lia.
    assert (Hs : slice_to data (0 - i0) = data).
    { unfold slice_to, slice_bound. rewrite HL.
      destruct (Z.ltb_spec (0 - i0) 0); [lia |]. apply take_ge. lia. }
    rewrite Hs. unfold iadd_slice, slice_bound. fold N.
    destruct (Z.ltb_spec i0 0); [| lia]. destruct (Z.ltb_spec 0 0); [lia |].
    rewrite decide_False by lia.
    destruct data as [| y [| y' data']]; cbn [length] in HL; try lia; done.
  - intros Hend HN.
    set (i1 := Z.min (i0 + L) N). assert (Hi1 : (0 < i1 <= i0 + L)%Z) by lia.
    assert (Hlen : length (slice_to data (i1 - i0)) = Z.to_nat (i1 - i0)).
    { unfold slice_to, slice_bound. rewrite HL.
      destruct (Z.ltb_spec (i1 - i0) 0); [lia |]. rewrite length_take. lia. }
    unfold iadd_slice, slice_bound. fold N.
    destruct (Z.ltb_spec i0 0); [| lia]. destruct (Z.ltb_spec i1 0); [lia |].
    rewrite decide_False by lia.
    destruct (slice_to data (i1 - i0)) as [| y [| y' data']]; cbn [length] in Hlen; try lia; done.
Qed.

Lemma mixer_negative_start_witness :
  let buf := [0; 0; 0; 0; 0]%Qc in
  let gen_fn := fun (_ : string) (_ : Qc) (g : N) => Done ([1; 1]%Qc, g) in
  add_event 5 buf ("x", 1%Qc, Q2Qc (-3 # 44100)) gen_fn 1%Qc 0%N
    = Done ([0; 0; 1; 1; 0]%Qc, 0%N) /\
  add_event 5 buf ("x", 1%Qc, Q2Qc (-2 # 44100)) gen_fn 1%Qc 0%N = Raise ValueError /\
  add_event 5 buf ("x", 1%Qc, Q2Qc (-1 # 44100)) gen_fn 1%Qc 0%N = Raise ValueError.
Proof.
  intros buf gen_fn. split; [| split].
  - destruct (mixer_negative_start (T:=Qc) gen_fn 1%Qc buf 0%N 0%N "x" 1%Qc
                (Q2Qc (-3 # 44100)) (-3)%Z [1; 1]%Qc) as (H & _ & _);
      [reflexivity | reflexivity | lia |].
    etransitivity; [apply H; vm_compute; congruence |]. qc_refl.
  - destruct (mixer_negative_start (T:=Qc) gen_fn 1%Qc buf 0%N 0%N "x" 1%Qc
                (Q2Qc (-2 # 44100)) (-2)%Z [1; 1]%Qc) as (_ & H & _);
      [reflexivity | reflexivity | lia |].
    apply H; vm_compute; congruence.
  - destruct (mixer_negative_start (T:=Qc) gen_fn 1%Qc buf 0%N 0%N "x" 1%Qc
                (Q2Qc (-1 # 44100)) (-1)%Z [1; 1]%Qc) as (_ & _ & H);
      [reflexivity | reflexivity | lia |].
    apply H; vm_compute; congruence.
Defined.

(** ** The drum events *)







(** ** Every event of the script can be mixed *)





Section Playable.
Context {G : Type} {RG : @PyRandom Qc G Qc_number}.
Variables (D bpm : Qc) (prog motif : list string) (fuel : nat).
Hypothesis bpm_pos : (0 < bpm)%Qc.
Hypothesis D_pos : (0 < D)%Qc.
Hypothesis prog_ok : valid_progression prog.
Hypothesis fuel_ok : enough_fuel D bpm fuel.





End Playable.



(** ** The mixer as a linear map *)

Section Sequence.
Context {T G : Type} `{NT : Number T}.
Implicit Types (gen_fn : string -> T -> G -> outcome (list T * G)).

Lemma add_events_loop_app (N : Z) (e1 e2 : list (@event T)) gen_fn (vol : T) :
  forall (buf : list T) (g : G),
  add_events_loop N buf (e1 ++ e2) gen_fn vol g
    = ('(b, g') ← add_events_loop N buf e1 gen_fn vol g;
       add_events_loop N b e2 gen_fn vol g').
Proof.
  induction e1 as [| ev e1 IH]; intros buf g; cbn [app add_events_loop]; [done |].
  destruct (add_event N buf ev gen_fn vol g) as [[b1 g1] | |]; run_bind; [| done | done].
  apply IH.
Qed.

(** X17: for any number type, mixing the concatenation of two event lists
    is mixing the first, then the second into the buffer and with the random
    source that the first leaves: the length that the second call reads is
    the one that the first call read. *)
Theorem mixing_a_concatenation (buf : list T) (e1 e2 : list (@event T)) gen_fn
    (vol : T) (g : G) :
  add_events buf (e1 ++ e2) gen_fn vol g
    = ('(b, g') ← add_events buf e1 gen_fn vol g; add_events b e2 gen_fn vol g').
Proof.
  unfold add_events. rewrite add_events_loop_app.
  destruct (add_events_loop _ buf e1 gen_fn vol g) as [[b1 g1] | |] eqn:H1; run_bind;
    [| done | done].
  apply add_events_loop_length in H1. by rewrite H1.
Qed.

End Sequence.

Section Linear.
Context {G : Type}.
Implicit Types (gen_fn : string -> Qc -> G -> outcome (list Qc * G)).

(** X18: in exact arithmetic, mixing adds to what the buffer holds: the
    outcome on a buffer is the outcome on silence of the same length, added
    sample by sample to the buffer. *)
Theorem mixing_superposes (buf : list Qc) (events : list (@event Qc)) gen_fn
    (vol : Qc) (g : G) :
  add_events buf events gen_fn vol g
    = (fun r => (buf_add buf r.1, r.2))
        <$> add_events (np_zeros (length buf)) events gen_fn vol g.
Proof.
  exact (add_events_contribution buf (Layer events gen_fn vol) g).
Qed.

Lemma lookup_map {A B : Type} (f : A -> B) (l : list A) (j : nat) :
  map f l !! j = f <$> l !! j.
Proof. exact (list_lookup_fmap f l j). Qed.

Lemma take_map {A B : Type} (f : A -> B) (l : list A) (k : nat) :
  take k (map f l) = map f (take k l).
Proof. symmetry. exact (fmap_take _ _ _). Qed.

Lemma map_replicate {A B : Type} (f : A -> B) (n : nat) (x : A) :
  map f (replicate n x) = replicate n (f x).
Proof. exact (fmap_replicate _ _ _). Qed.

Lemma slice_to_scaled (vol : Qc) (l : list Qc) (k : Z) :
  slice_to (scaled vol l) k = scaled vol (slice_to l k).
Proof. unfold slice_to, scaled. by rewrite length_map, take_map. Qed.

Lemma imap_add_at_scaled (vol : Qc) (lo : nat) (rhs c : list Qc) :
  imap (add_at lo (scaled vol rhs)) (scaled vol c) = scaled vol (imap (add_at lo rhs) c).
Proof.
  apply list_eq. intros j. unfold scaled.
  rewrite lookup_add_at, (lookup_map _ c), (lookup_map _ (imap (add_at lo rhs) c)), lookup_add_at.
  destruct (c !! j) as [x |]; [| done]. cbn. f_equal.
  unfold add_at. case_decide; [| done]. rewrite lookup_map.
  destruct (rhs !! (j - lo)%nat); [| done]. cbn. exact_num. ring.
Qed.

Lemma iadd_slice_scaled (vol : Qc) (c : list Qc) (i0 i1 : Z) (rhs : list Qc) :
  iadd_slice (scaled vol c) i0 i1 (scaled vol rhs) = scaled vol <$> iadd_slice c i0 i1 rhs.
Proof.
  assert (Hlen : forall l, length (scaled vol l) = length l)
    by (intros l; apply length_map).
  unfold iadd_slice. rewrite !Hlen.
  case_decide.
  - cbn. by rewrite imap_add_at_scaled.
  - destruct rhs as [| y [| ? ?]]; try done. cbn.
    change [(y * vol)%Qc] with (scaled vol [y]).
    rewrite <- (imap_add_at_scaled vol _ (replicate _ y) c).
    unfold scaled. by rewrite map_replicate.
Qed.

Lemma add_event_scaled (N : Z) (c : list Qc) (ev : @event Qc) gen_fn (vol : Qc) (g : G) :
  add_event N (scaled vol c) ev gen_fn vol g
    = (fun r => (scaled vol r.1, r.2)) <$> add_event N c ev gen_fn 1%Qc g.
Proof.
  destruct ev as [[name dur] start]. unfold add_event.
  destruct (py_int _) as [i0 | |]; run_fmap; try done.
  destruct (gen_fn name dur g) as [[wave g1] | |]; run_fmap; try done.
  exact_num. rewrite !length_map.
  destruct (i0 <? N)%Z; [| done].
  assert (Hd : map (fun x => (x * vol)%Qc) wave
               = scaled vol (map (fun x => (x * 1)%Qc) wave)).
  { unfold scaled. rewrite map_map. apply map_ext. intros x. ring. }
  rewrite Hd, slice_to_scaled, iadd_slice_scaled.
  by destruct (iadd_slice c _ _ _).
Qed.

Lemma add_events_loop_scaled (N : Z) (events : list (@event Qc)) gen_fn (vol : Qc) :
  forall (c : list Qc) (g : G),
  add_events_loop N (scaled vol c) events gen_fn vol g
    = (fun r => (scaled vol r.1, r.2)) <$> add_events_loop N c events gen_fn 1%Qc g.
Proof.
  induction events as [| ev events IH]; intros c g; cbn [add_events_loop]; [done |].
  rewrite add_event_scaled.
  destruct (add_event N c ev gen_fn 1%Qc g) as [[c1 g1] | |]; cbn; try done.
  apply IH.
Qed.

(** X19: in exact arithmetic, the volume scales what a call of the mixer
    adds to silence: the outcome at volume [vol] is the outcome at volume 1
    with every sample multiplied by [vol]. *)
Theorem volume_scales_the_mix (n : nat) (events : list (@event Qc)) gen_fn
    (vol : Qc) (g : G) :
  add_events (np_zeros n) events gen_fn vol g
    = (fun r => (map (fun x => (x * vol)%Qc) r.1, r.2))
        <$> add_events (np_zeros n) events gen_fn 1%Qc g.
Proof.
  unfold add_events.
  assert (Hz : np_zeros (T:=Qc) n = scaled vol (np_zeros n)).
  { unfold scaled, np_zeros. rewrite map_replicate. f_equal. exact_num. ring. }
  rewrite Hz at 2. by rewrite add_events_loop_scaled.
Qed.

End Linear.

(** ** The whole script *)

Lemma script_tempo (z : Z) :
  (110 <= z <= 140)%Z ->
  (0 < of_int (T:=Qc) z)%Qc /\ enough_fuel (Q2Qc 15) (of_int z) 70.
Proof.
  intros Hz.
  assert (H110 : (of_int (T:=Qc) 110 <= of_int z)%Qc) by (apply of_int_le; lia).
  assert (H140 : (of_int (T:=Qc) z <= of_int 140)%Qc) by (apply of_int_le; lia).
  set (bpm := of_int (T:=Qc) z) in *.
  assert (E110 : of_int (T:=Qc) 110 = Q2Qc 110) by reflexivity.
  assert (E140 : of_int (T:=Qc) 140 = Q2Qc 140) by reflexivity.
  rewrite E110 in H110. rewrite E140 in H140.
  assert (Hpos : (0 < bpm)%Qc) by qc_lra.
  split; [done |].
  unfold enough_fuel, iterations_bound, beat_of.
  assert (Hq : (Q2Qc 15 / (Q2Qc 0.5 * (Q2Qc 60 / bpm)))%Qc = (bpm * Q2Qc 0.5)%Qc).
  { assert (bpm <> 0%Qc)
      by (intros Hz0; rewrite Hz0 in Hpos; by apply (irreflexivity Qclt) in Hpos).
    apply Qc_eq_iff. unfold Qcdiv, Qcinv.
    rewrite ?this_mult, ?this_Q2Qc, ?this_mult, ?this_Q2Qc.
    assert (~ (this bpm == 0)%Q) by (intros Hb; apply H; by apply Qc_eq_iff).
    field. done. }
  rewrite Hq.
  assert (Hle : (this (bpm * Q2Qc 0.5)%Qc <= 70)%Q) by qc_lra.
  apply Qceiling_resp_le in Hle. change (Qceiling 70) with 70%Z in Hle. lia.
Qed.

Section Script.
Context {G : Type} {RG : @PyRandom Qc G Qc_number} {TR : Transcendental Qc}.



End Script.


(** ** A piece of no length *)

Section EmptyPiece.
Context {G : Type} {RG : @PyRandom Qc G Qc_number} {TR : Transcendental Qc}.

(** X21: in exact arithmetic, with a total duration of zero or less the
    run of the script stops with [ValueError], whatever the random source:
    the layers are empty, and either the length [int (DURATION * SR)] of the
    buffer is negative, which [np.zeros] refuses, or the buffer is empty and
    [np.max] has nothing to reduce. *)
Theorem empty_piece_stops_at_the_normaliser (D : Qc) (fuel : nat) (g : G) :
  (D <= 0)%Qc -> build_and_mix D fuel g = Raise ValueError.
Proof.
  intros HD. unfold build_and_mix.
  pose proof (random_randint_range 110 140 g ltac:(lia)) as Hz.
  destruct (random_randint 110 140 g) as [z g0]. cbn [fst] in Hz.
  destruct (script_tempo z Hz) as [Hbpm _].
  destruct (random_choice_cases chord_progressions g0) as [[? _] | (prog & g1 & -> & _)];
    [done |].
  run_bind.
  destruct (random_choice_cases scale g1) as [[? _] | (m1 & g2 & -> & _)]; [done |].
  run_bind.
  destruct (random_choice_cases scale g2) as [[? _] | (m2 & g3 & -> & _)]; [done |].
  run_bind.
  destruct (random_choice_cases scale g3) as [[? _] | (m3 & g4 & -> & _)]; [done |].
  run_bind.
  destruct (idle_generators D (of_int z) prog [m1; m2; m3] fuel g4 HD Hbpm)
    as (-> & [g5 Harp] & -> & -> & _).
  run_bind. rewrite Harp. run_bind.
  destruct (idle_generators D (of_int z) prog [m1; m2; m3] fuel g5 HD Hbpm)
    as (_ & _ & _ & _ & ->).
  run_bind. unfold py_int. exact_num. run_bind.
  assert (Hn : (Qc_trunc (D * SR)%Qc <= 0)%Z).
  { apply Qc_trunc_nonpos.
    assert (0 <= - D * SR)%Qc by (apply Qcmult_nonneg_nonneg; [qc_lra | by vm_compute]).
    replace (- D * SR)%Qc with (- (D * SR))%Qc in * by ring. qc_lra. }
  destruct (Z.ltb_spec (Qc_trunc (D * SR)%Qc) 0); [done |].
  replace (Qc_trunc (D * SR)%Qc) with 0%Z by lia. run_bind.
  reflexivity.
Qed.

End EmptyPiece.

Lemma empty_piece_stops_at_the_normaliser_witness :
  build_and_mix (RG:=lcg_random) (TR:=series_transcendental) 0%Qc 0 7%N = Raise ValueError.
Proof.
  apply (empty_piece_stops_at_the_normaliser (RG:=lcg_random) (TR:=series_transcendental)).
  discriminate.
Defined.

(** ** The name of the output file *)

Lemma string_length_app (s t : string) :
  String.length (s +:+ t) = (String.length s + String.length t)%nat.
Proof. induction s as [| c s IH]; simpl; [done | by rewrite IH]. Qed.

Lemma string_app_inj_r (t s1 s2 : string) : s1 +:+ t = s2 +:+ t -> s1 = s2.
Proof.
  revert s2. induction s1 as [| c s1 IH]; intros [| d s2] H.
  - done.
  - apply (f_equal String.length) in H. rewrite !string_length_app in H.
    cbn [String.length] in H. lia.
  - apply (f_equal String.length) in H. rewrite !string_length_app in H.
    cbn [String.length] in H. lia.
  - change (String c (s1 +:+ t) = String d (s2 +:+ t)) in H.
    injection H as -> H. f_equal. by apply IH.
Qed.

Lemma numbered_inj (base ext : string) : Inj (=) (=) (numbered base ext).
Proof.
  intros i j H. unfold numbered in H.
  apply String.app_inj in H. apply String.app_inj in H.
  apply string_app_inj_r in H. by apply pretty_Z_inj in H.
Qed.

Section FilesProofs.
Variable path_exists : string -> bool.

Lemma unique_loop_done fuel base ext : forall name i name',
  unique_loop path_exists fuel base ext name i = Done name' ->
  path_exists name' = false /\
  (name' = name \/
   path_exists name = true /\
   exists k : nat, name' = numbered base ext (i + Z.of_nat k) /\
     forall j : nat, (j < k)%nat -> path_exists (numbered base ext (i + Z.of_nat j)) = true).
Proof.
  induction fuel as [| fuel IH]; intros name i name'; cbn [unique_loop];
    destruct (path_exists name) eqn:E; try done.
  - intros [= <-]. auto.
  - intros H. apply IH in H as [Hfree Hcases]. split; [done |]. right. split; [done |].
    destruct Hcases as [-> | (Hex & k & -> & Hk)].
    + exists 0%nat. rewrite Z.add_0_r. split; [done |]. lia.
    + exists (S k). split; [f_equal; lia |].
      intros [| j] Hj; [by rewrite Z.add_0_r |].
      replace (i + Z.of_nat (S j))%Z with (i + 1 + Z.of_nat j)%Z by lia. apply Hk. lia.
  - intros [= <-]. auto.
Qed.

Lemma unique_loop_out_of_fuel fuel base ext : forall name i,
  unique_loop path_exists fuel base ext name i = OutOfFuel ->
  forall j : nat, (j < fuel)%nat -> path_exists (numbered base ext (i + Z.of_nat j)) = true.
Proof.
  induction fuel as [| fuel IH]; intros name i; cbn [unique_loop];
    destruct (path_exists name) eqn:E; try done.
  - intros _ j Hj. lia.
  - intros H [| j] Hj.
    + rewrite Z.add_0_r. destruct fuel; cbn [unique_loop] in H;
        destruct (path_exists (numbered base ext i)); done.
    + replace (i + Z.of_nat (S j))%Z with (i + 1 + Z.of_nat j)%Z by lia.
      eapply IH; [exact H | lia].
Qed.

Lemma unique_loop_no_raise fuel base ext : forall name i e,
  unique_loop path_exists fuel base ext name i <> Raise e.
Proof.
  induction fuel as [| fuel IH]; intros name i e; cbn [unique_loop];
    destruct (path_exists name); done.
Qed.

End FilesProofs.

(** X22: a name that [get_unique_filename] returns does not exist; it is
    [base + ext], or [base + ext] exists and the name is [base (i)ext] for
    the least [i >= 1] whose name does not exist. *)
Theorem unique_filename_is_first_free (path_exists : string -> bool)
    (fuel : nat) (base ext name : string) :
  get_unique_filename path_exists fuel base ext = Done name ->
  path_exists name = false /\
  (name = base +:+ ext \/
   path_exists (base +:+ ext) = true /\
   exists i : Z, (1 <= i)%Z /\ name = numbered base ext i /\
     forall j : Z, (1 <= j < i)%Z -> path_exists (numbered base ext j) = true).
Proof.
  intros H. apply unique_loop_done in H as [Hfree [-> | (Hex & k & -> & Hk)]].
  - auto.
  - split; [done |]. right. split; [done |].
    exists (1 + Z.of_nat k)%Z. repeat split; [lia |].
    intros j Hj. replace j with (1 + Z.of_nat (Z.to_nat (j - 1)))%Z by lia.
    apply Hk. lia.
Qed.

Lemma unique_filename_is_first_free_witness :
  let fs := fun s => bool_decide (s ∈ ["song.mp3"; "song (1).mp3"; "song (3).mp3"]) in
  fs "song (2).mp3" = false /\
  ("song (2).mp3" = "song" +:+ ".mp3" \/
   fs ("song" +:+ ".mp3") = true /\
   exists i : Z, (1 <= i)%Z /\ "song (2).mp3" = numbered "song" ".mp3" i /\
     forall j : Z, (1 <= j < i)%Z -> fs (numbered "song" ".mp3" j) = true).
Proof.
  intros fs.
  apply (unique_filename_is_first_free fs 5 "song" ".mp3" "song (2).mp3").
  vm_compute. reflexivity.
Defined.

(** X23: when the existing paths are finitely many, [get_unique_filename]
    returns a name: fuel for one iteration more than there are paths is
    enough, whatever the base and the extension. *)
Theorem unique_filename_terminates (path_exists : string -> bool) (files : gset string)
    (fuel : nat) (base ext : string) :
  (forall p, path_exists p = true -> p ∈ files) ->
  (size files < fuel)%nat ->
  exists name, get_unique_filename path_exists fuel base ext = Done name.
Proof.
  intros Hfiles Hfuel.
  destruct (get_unique_filename path_exists fuel base ext) as [name | e |] eqn:H.
  - by exists name.
  - by apply unique_loop_no_raise in H.
  - exfalso. pose proof (unique_loop_out_of_fuel _ _ _ _ _ _ H) as Hall.
    set (names := (fun j : nat => numbered base ext (1 + Z.of_nat j)) <$> seq 0 fuel).
    assert (Hnd : NoDup names).
    { apply NoDup_fmap_2; [| apply NoDup_seq].
      intros j1 j2 Hj. apply numbered_inj in Hj. lia. }
    assert (Hsub : list_to_set (C:=gset string) names ⊆ files).
    { intros p Hp. apply elem_of_list_to_set in Hp.
      apply list_elem_of_fmap in Hp as (j & -> & Hj). apply elem_of_seq in Hj.
      apply Hfiles, Hall. lia. }
    apply subseteq_size in Hsub. rewrite size_list_to_set in Hsub by done.
    subst names. rewrite length_fmap, length_seq in Hsub. lia.
Qed.

Lemma unique_filename_terminates_witness :
  exists name,
    get_unique_filename
      (fun s => bool_decide (s ∈ ({["song.mp3"; "song (1).mp3"]} : gset string)))
      3 "song" ".mp3" = Done name.
Proof.
  apply (unique_filename_terminates _ {["song.mp3"; "song (1).mp3"]}).
  - intros p Hp. by apply bool_decide_eq_true in Hp.
  - vm_compute. lia.
Defined.

(** * Remarks on binary64

    The theorems about time and amplitude above are about exact arithmetic.
    The remarks below run the same embedding on binary64. *)

(** The one-second scenario involves dyadic numbers only, and comes out the
    same in binary64. *)
Example one_second_scenario_binary64 :
  make_bass (T:=float) 1%float 4 ["C3"; "C3"; "C3"; "C3"] 120%float
    = Done [("C3", 1%float, 0%float)] /\
  fst <$> make_arpeggio (T:=float) (G:=N) 1%float 4 ["C3"; "C3"; "C3"; "C3"] 120%float 0%N
    = Done [ ("C4", 0.25%float, 0%float); ("E4", 0.25%float, 0.25%float);
             ("G4", 0.25%float, 0.5%float); ("C4", 0.25%float, 0.75%float) ].
Proof. split; reflexivity. Qed.

(** Sums are rounded in binary64, so the last bit of a sample can depend on
    the order in which three contributions reach it: here one-sample
    waveforms at volumes 0.1, 0.2 and 0.3. *)
Remark binary64_sum_depends_on_order :
  let one (v : float) : @layer float N :=
    Layer [("x", 1%float, 0%float)] (fun _ _ g => Done ([1%float], g)) v in
  mix [0%float] [one 0.1%float; one 0.2%float; one 0.3%float] 0%N
    = Done ([0x1.3333333333334p-1%float], 0%N) /\
  mix [0%float] [one 0.3%float; one 0.2%float; one 0.1%float] 0%N
    = Done ([0x1.3333333333333p-1%float], 0%N).
Proof. split; reflexivity. Qed.

(** The conversion to PCM on binary64: [3.0] is normalised to
    [0.8999999999999999], which times 32767 is truncated to 29490, the value
    of exact arithmetic; each sample is written low byte first. *)
Example pcm_binary64 :
  (buf ← result_of (normalize (T:=float) [3%float; (-1.5)%float; 0%float]);
   pcm ← to_pcm buf; Some (pcm, tobytes pcm))
  = Some ([29490; -14745; 0]%Z, [50; 115; 103; 198; 0; 0]%Z).
Proof. vm_compute. reflexivity. Qed.

(** A start of [-0.00007] seconds is the index [-3]: the two samples are
    added three samples before the end of the buffer. *)
Example negative_start_binary64 :
  let gen_fn := fun (_ : string) (_ : float) (g : N) => Done ([1; 1]%float, g) in
  add_event (T:=float) 5 [0; 0; 0; 0; 0]%float ("x", 1%float, (-0.00007)%float) gen_fn 1%float 0%N
    = Done ([0; 0; 1; 1; 0]%float, 0%N).
Proof. vm_compute. reflexivity. Qed.
